(** * VRBLL chat relay: the WebSocket server of [wsServer.ts] and the session
      registry of [session.ts], as a state machine over explicit server state.

    The server is a single-threaded Node.js event loop: every handler runs to
    completion, so one handler invocation is one atomic step of the model.
    Each step returns the new server state and the list of [send] calls the
    handler made, in program order. *)

From stdpp Require Import gmap strings list fin_maps sorting.
From Stdlib Require Import ZArith Lia.

Local Open Scope Z_scope.
Set Warnings "-register-all".

(** ** JSON values and the JavaScript operators the handler applies to them *)

(** What [JSON.parse] can return.  Numbers only reach the handler through
    truthiness and [typeof], so an integer stands for the number. An object
    is kept as its members in source order. *)
Inductive json : Type :=
| JNull
| JBool (b : bool)
| JNum (n : Z)
| JStr (s : string)
| JArr (items : list json)
| JObj (members : list (string * json)).

(** A JavaScript value read out of a parsed frame: [None] is [undefined]. *)
Definition jsval : Type := option json.

(** Outcome of an expression inside the handler's [try] block. *)
Inductive completion (A : Type) : Type :=
| Normal (a : A)
| Throw.
Arguments Normal {A} a.
Arguments Throw {A}.

#[global] Instance completion_ret : MRet completion := @Normal.
#[global] Instance completion_bind : MBind completion :=
  fun A B f m => match m with Normal a => f a | Throw => Throw end.

(** Own property of a parsed object; a repeated key keeps its last value, as
    [JSON.parse] does. *)
Fixpoint own_property (members : list (string * json)) (key : string) : jsval :=
  match members with
  | [] => None
  | (k, v) :: rest =>
      match own_property rest key with
      | Some later => Some later
      | None => if decide (k = key) then Some v else None
      end
  end.

(** [msg.key] for the keys the handler reads ([type], [username], [content]):
    reading a property of [null] throws a TypeError, primitives and arrays
    have no such property. *)
Definition member (msg : json) (key : string) : completion jsval :=
  match msg with
  | JNull => Throw
  | JObj members => Normal (own_property members key)
  | _ => Normal None
  end.

(** [!!v] *)
Definition truthy (v : jsval) : bool :=
  match v with
  | None | Some JNull => false
  | Some (JBool b) => b
  | Some (JNum n) => negb (n =? 0)
  | Some (JStr s) => negb (String.eqb s "")
  | Some (JArr _) | Some (JObj _) => true
  end.

(** [typeof v] *)
Definition typeof (v : jsval) : string :=
  match v with
  | None => "undefined"
  | Some (JBool _) => "boolean"
  | Some (JNum _) => "number"
  | Some (JStr _) => "string"
  | Some JNull | Some (JArr _) | Some (JObj _) => "object"
  end.

(** The string behind a value whose [typeof] is ["string"]. *)
Definition string_of (v : jsval) : string :=
  match v with Some (JStr s) => s | _ => "" end.

(** A JavaScript string is kept as the bytes of its UTF-8 encoding (a lone
    surrogate as its three-byte form), which is what a string literal of this
    file spells.  How a byte starts or continues a sequence: [None] for a
    continuation byte, [Some n] for a byte that starts a sequence with [n]
    continuation bytes. *)
Definition utf8_tail (c : Ascii.ascii) : option nat :=
  match c with
  | Ascii.Ascii _ _ _ _ _ _ _ false => Some 0%nat
  | Ascii.Ascii _ _ _ _ _ _ false true => None
  | Ascii.Ascii _ _ _ _ _ false true true => Some 1%nat
  | Ascii.Ascii _ _ _ _ false true true true => Some 2%nat
  | Ascii.Ascii _ _ _ _ true true true true => Some 3%nat
  end.

(** Number of UTF-16 code units from a position inside the string: [pending]
    continuation bytes of the current sequence are still to come, and [pair]
    says the sequence is a four-byte one, whose code point takes two units.
    A byte out of place counts as one unit. *)
Fixpoint utf16_from (pending : nat) (pair : bool) (s : string) : nat :=
  match s with
  | EmptyString => 0
  | String c rest =>
      match utf8_tail c, pending with
      | None, S p => (if pair then 1 else 0) + utf16_from p false rest
      | None, O => 1 + utf16_from 0 false rest
      | Some n, _ => 1 + utf16_from n (Nat.eqb n 3) rest
      end
  end%nat.

(** [s.length]: the number of UTF-16 code units of the string. *)
Definition utf16_length (s : string) : nat := utf16_from 0 false s.

(** [v.length] of a string value. *)
Definition js_length (v : jsval) : Z := Z.of_nat (utf16_length (string_of v)).

(** [v === lit] against a string literal. *)
Definition strict_eq (v : jsval) (lit : string) : bool :=
  match v with Some (JStr s) => String.eqb s lit | _ => false end.

(** ** Data model *)

(** session.ts: [interface Session] *)
Record Session : Type := mkSession {
  id : string;
  username : string;
  connectedAt : Z
}.

(** messageStore: [ChatMessage], as built in the message branch *)
Record ChatMessage : Type := mkChatMessage {
  msg_id : string;
  from : string;
  content : string;
  timestamp : Z
}.

(** Value type of [rateLimitMap] *)
Record RateLimit : Type := mkRateLimit {
  count : Z;
  last : Z
}.

Definition RATE_LIMIT_WINDOW : Z := 5000.
Definition RATE_LIMIT_MAX : Z := 10.

(** [WebSocket.readyState] *)
Inductive ReadyState : Type := CONNECTING | OPEN | CLOSING | CLOSED.

#[global] Instance ReadyState_eq_dec : EqDecision ReadyState.
Proof. solve_decision. Defined.

(** One accepted connection: the socket's state and the [sessionId] variable
    captured by its handlers ([None] is [null]). *)
Record Conn : Type := mkConn {
  readyState : ReadyState;
  sessionId : option string
}.

(** Frames the server writes *)
Inductive Frame : Type :=
| ErrorFrame (error : string)
| Welcome (sid : string)
| Presence (event : string) (user : string)
| History (msgs : list ChatMessage)
| Message (m : ChatMessage).

#[global] Instance Session_eq_dec : EqDecision Session.
Proof. solve_decision. Defined.
#[global] Instance ChatMessage_eq_dec : EqDecision ChatMessage.
Proof. solve_decision. Defined.
#[global] Instance RateLimit_eq_dec : EqDecision RateLimit.
Proof. solve_decision. Defined.
#[global] Instance Frame_eq_dec : EqDecision Frame.
Proof. solve_decision. Defined.

(** A call [client.send(frame)]: the connection and the frame. *)
Definition Send : Type := nat * Frame.

(** Module-level state of the server process.  Connections are named by
    numbers; [clients] is [wss.clients] in insertion order, [conns] holds
    every connection the server accepted, closed ones included. *)
Record Server : Type := mkServer {
  sessions : gmap string Session;
  rateLimitMap : gmap string RateLimit;
  messages : list ChatMessage;
  clients : list nat;
  conns : gmap nat Conn
}.

Definition init : Server := mkServer ∅ ∅ [] [] ∅.

Definition set_sessions (f : gmap string Session -> gmap string Session) (s : Server) : Server :=
  mkServer (f (sessions s)) (rateLimitMap s) (messages s) (clients s) (conns s).
Definition set_rateLimitMap (f : gmap string RateLimit -> gmap string RateLimit) (s : Server) : Server :=
  mkServer (sessions s) (f (rateLimitMap s)) (messages s) (clients s) (conns s).
Definition set_messages (f : list ChatMessage -> list ChatMessage) (s : Server) : Server :=
  mkServer (sessions s) (rateLimitMap s) (f (messages s)) (clients s) (conns s).
Definition set_clients (f : list nat -> list nat) (s : Server) : Server :=
  mkServer (sessions s) (rateLimitMap s) (messages s) (f (clients s)) (conns s).
Definition set_conns (f : gmap nat Conn -> gmap nat Conn) (s : Server) : Server :=
  mkServer (sessions s) (rateLimitMap s) (messages s) (clients s) (f (conns s)).

(** ** session.ts *)

Definition createSession (sid name : string) (now : Z) (s : Server) : Server :=
  set_sessions (fun m => <[sid := mkSession sid name now]> m) s.

Definition getSession (sid : string) (s : Server) : option Session :=
  sessions s !! sid.

Definition removeSession (sid : string) (s : Server) : Server :=
  set_sessions (fun m => delete sid m) s.

(** ** messageStore *)

(** Modelled from the spec: the module [messageStore] imported by
    wsServer.ts is not among the sources.  [storeMessage] is the History
    Store's append ("adds to the tail").  The other half of the store's
    contract, that the oldest entries may be evicted under its retention
    policy, is [trimHistory] below, a step of its own of the server
    process. *)
Definition storeMessage (m : ChatMessage) (s : Server) : Server :=
  set_messages (fun l => l ++ [m]) s.

(** Modelled from the spec: [getMessages] of the same missing module, the
    retained messages in acceptance order. *)
Definition getMessages (s : Server) : list ChatMessage := messages s.

(** Modelled from the spec: the retention policy of the same missing module
    ("if the log exceeds a configured maximum retained count, the oldest
    entries may be evicted"; no retention size is guaranteed).  The maximum
    is not given, so when the store evicts and how much is left open:
    [trimHistory n] evicts the [n] oldest entries, all of them when there
    are no more than [n].  The specification has this trimming run under the
    serialisation of the handlers, so it is a step of the server process
    ([Trim] below) that can come between any two dispatches. *)
Definition trimHistory (n : nat) (s : Server) : Server :=
  set_messages (fun l => drop n l) s.

(** [arr.slice(-n)]: the last [n] elements, all of them when there are fewer. *)
Definition slice_last {A : Type} (n : nat) (l : list A) : list A :=
  drop (length l - n)%nat l.

(** ** wsServer.ts *)

(** [client.readyState] of a connection of the server. *)
Definition ready (s : Server) (c : nat) : option ReadyState :=
  readyState <$> conns s !! c.

(** The handler's captured variable [sessionId]. *)
Definition bound (s : Server) (ws : nat) : option string :=
  conns s !! ws ≫= sessionId.

(** [if (sessionId)]: neither [null] nor the empty string. *)
Definition sid_truthy (sid : option string) : bool :=
  match sid with Some x => negb (String.eqb x "") | None => false end.

(** [sessionId = v] *)
Definition assign_sessionId (ws : nat) (v : string) (s : Server) : Server :=
  set_conns (fun m => alter (fun k => mkConn (readyState k) (Some v)) ws m) s.

(** [broadcast(data)]: one [send] per client whose socket is OPEN, in the
    iteration order of [wss.clients]. *)
Definition broadcast (data : Frame) (s : Server) : list Send :=
  (fun c => (c, data)) <$> filter (fun c => ready s c = Some OPEN) (clients s).

(** [sendHistory()] *)
Definition sendHistory (ws : nat) (s : Server) : list Send :=
  [(ws, History (slice_last 50 (getMessages s)))].

(** The rate-limiter lines of the message branch: the entry read from
    [rateLimitMap] (or a new one), reset when the window has passed, then
    counted up; the result is what is written back to the map. *)
Definition rate_limit_update (now : Z) (entry : option RateLimit) : RateLimit :=
  let rl := default (mkRateLimit 0 now) entry in
  let rl := if decide (now - last rl > RATE_LIMIT_WINDOW)
            then mkRateLimit 0 now else rl in
  mkRateLimit (count rl + 1) (last rl).

#[global] Arguments rate_limit_update : simpl never.

(** Body of the [try] block of [ws.on('message')], after [JSON.parse]. *)
Definition handle (ws : nat) (now : Z) (uuid : string) (msg : json) (s : Server)
  : completion (Server * list Send) :=
  type ← member msg "type";
  if negb (truthy type) || negb (String.eqb (typeof type) "string") then
    mret (s, [(ws, ErrorFrame "Missing or invalid type")])
  else if strict_eq type "join" then
    if sid_truthy (bound s ws) then
      mret (s, [(ws, ErrorFrame "Already joined")])
    else
      name ← member msg "username";
      if negb (truthy name) || negb (String.eqb (typeof name) "string")
         || (js_length name <? 2) then
        mret (s, [(ws, ErrorFrame "Invalid username")])
      else
        let s1 := assign_sessionId ws uuid s in
        let s2 := createSession uuid (string_of name) now s1 in
        mret (s2, [(ws, Welcome uuid)]
                  ++ broadcast (Presence "join" (string_of name)) s2
                  ++ sendHistory ws s2)
  else if strict_eq type "message" && sid_truthy (bound s ws) then
    let sid := default "" (bound s ws) in
    let rl := rate_limit_update now (rateLimitMap s !! sid) in
    let s1 := set_rateLimitMap (fun m => <[sid := rl]> m) s in
    if decide (count rl > RATE_LIMIT_MAX) then
      mret (s1, [(ws, ErrorFrame "Rate limit exceeded")])
    else
      text ← member msg "content";
      if negb (truthy text) || negb (String.eqb (typeof text) "string")
         || (js_length text =? 0) then
        mret (s1, [(ws, ErrorFrame "Empty message")])
      else
        let user := match getSession sid s1 with
                    | Some se => if String.eqb (username se) "" then "unknown"
                                 else username se
                    | None => "unknown"
                    end in
        let chatMsg := mkChatMessage uuid user (string_of text) now in
        let s2 := storeMessage chatMsg s1 in
        mret (s2, broadcast (Message chatMsg) s2)
  else
    mret (s, [(ws, ErrorFrame "Unknown or unauthorized event")]).

(** [ws.on('message')]: [data] is the outcome of [JSON.parse(data.toString())];
    the [catch] clause answers every exception with one error frame. *)
Definition on_message (ws : nat) (now : Z) (uuid : string) (data : completion json)
    (s : Server) : Server * list Send :=
  match data ≫= (fun msg => handle ws now uuid msg s) with
  | Normal r => r
  | Throw => (s, [(ws, ErrorFrame "Invalid message format")])
  end.

(** [ws.on('close')] *)
Definition on_close (ws : nat) (s : Server) : Server * list Send :=
  if sid_truthy (bound s ws) then
    let sid := default "" (bound s ws) in
    let user := username <$> getSession sid s in
    let s1 := removeSession sid s in
    match user with
    | Some u => if String.eqb u "" then (s1, [])
                else (s1, broadcast (Presence "leave" u) s1)
    | None => (s1, [])
    end
  else (s, []).

(** ** Events of the server process *)

(** What the event loop dispatches.  [Incoming] carries what the handler
    reads from its environment: the clock ([Date.now()]), the identifier the
    next [uuidv4()] call returns, and the outcome of [JSON.parse]. [Drop] is
    a transport that stops being OPEN before its close event is dispatched.
    [Trim] is the message store evicting its oldest entries, which happens
    under the same serialisation as the handlers. *)
Inductive Event : Type :=
| Connection (ws : nat)
| Incoming (ws : nat) (now : Z) (uuid : string) (data : completion json)
| Drop (ws : nat)
| Close (ws : nat)
| Trim (n : nat).

(** One dispatch.  The [ws] library adds an accepted socket to [wss.clients]
    before the connection handler runs and removes a closed one (then in
    state CLOSED) before the close handler of wsServer.ts runs. *)
Definition step (e : Event) (s : Server) : Server * list Send :=
  match e with
  | Connection ws =>
      (set_clients (fun l => l ++ [ws])
         (set_conns (fun m => <[ws := mkConn OPEN None]> m) s), [])
  | Incoming ws now uuid data => on_message ws now uuid data s
  | Drop ws =>
      (set_conns (fun m => alter (fun k => mkConn CLOSING (sessionId k)) ws m) s, [])
  | Close ws =>
      on_close ws
        (set_clients (fun l => filter (fun c => c ≠ ws) l)
           (set_conns (fun m => alter (fun k => mkConn CLOSED (sessionId k)) ws m) s))
  | Trim n => (trimHistory n s, [])
  end.

(** The identifier generator never repeats itself and never returns the
    empty string: [uuid] has not been handed to any connection. *)
Definition fresh (uuid : string) (s : Server) : Prop :=
  uuid ≠ "" ∧ map_Forall (fun _ k => sessionId k ≠ Some uuid) (conns s).

(** When the event loop can dispatch an event: a connection is new, frames
    arrive on open sockets only, and a socket closes once.  The store may
    evict at any time, and as many of its oldest entries as it likes. *)
Definition enabled (e : Event) (s : Server) : Prop :=
  match e with
  | Connection ws => conns s !! ws = None
  | Incoming ws _ uuid _ => ws ∈ clients s ∧ ready s ws = Some OPEN ∧ fresh uuid s
  | Drop ws => ws ∈ clients s ∧ ready s ws = Some OPEN
  | Close ws => ws ∈ clients s
  | Trim n => True
  end.

#[global] Instance fresh_dec uuid s : Decision (fresh uuid s).
Proof. unfold fresh. apply _. Defined.

#[global] Instance enabled_dec e s : Decision (enabled e s).
Proof. destruct e; simpl; apply _. Defined.

(** States the server can be in, with every [send] call made so far. *)
Inductive reachable : Server -> list Send -> Prop :=
| reachable_init : reachable init []
| reachable_step s log e s' out :
    reachable s log ->
    enabled e s ->
    step e s = (s', out) ->
    reachable s' (log ++ out).

(** Running a list of events from a state; [None] when one is not enabled. *)
Fixpoint exec (evs : list Event) (s : Server) (log : list Send)
  : option (Server * list Send) :=
  match evs with
  | [] => Some (s, log)
  | e :: rest =>
      if decide (enabled e s) then
        let (s', out) := step e s in exec rest s' (log ++ out)
      else None
  end.

(** A frame whose [type] is the given literal. *)
Definition frame_of_type (msg : json) (ty : string) : Prop :=
  member msg "type" = Normal (Some (JStr ty)).

(** The [content] check of the message branch fails: the field is missing,
    not a string, or the empty string. *)
Definition content_rejected (msg : json) : Prop :=
  ∀ text, member msg "content" = Normal (Some (JStr text)) → text = "".

Definition join_frame (name : string) : completion json :=
  Normal (JObj [("type", JStr "join"); ("username", JStr name)]).
Definition message_frame (text : string) : completion json :=
  Normal (JObj [("type", JStr "message"); ("content", JStr text)]).

(** Eleven messages in one window, all at clock 100. *)
Definition burst_of_eleven : list Event :=
  [Connection 0; Incoming 0 7 "s1" (join_frame "alice")]
  ++ ((fun u => Incoming 0 100 u (message_frame "x"))
      <$> ["m01"; "m02"; "m03"; "m04"; "m05"; "m06"; "m07"; "m08"; "m09"; "m10"; "m11"]).

(** The state and the log after a list of events from the initial state
    (the initial state itself when some event is not enabled). *)
Definition after (evs : list Event) : Server * list Send :=
  default (init, []) (exec evs init []).

(** Three registered connections, the middle one no longer open. *)
Definition three_clients : Server :=
  mkServer ∅ ∅ [] [0%nat; 1%nat; 2%nat]
    {[0%nat := mkConn OPEN None; 1%nat := mkConn CLOSING None;
      2%nat := mkConn OPEN None]}.

Definition is_history (f : Frame) : bool :=
  match f with History _ => true | _ => false end.
Definition is_welcome (f : Frame) : bool :=
  match f with Welcome _ => true | _ => false end.

(** How many frames of a kind a connection has been sent. *)
Definition sent_to (ws : nat) (kind : Frame -> bool) (log : list Send) : nat :=
  length (filter (fun x => x.1 = ws ∧ kind x.2 = true) log).

(** The parsed frame is an event of the given type. *)
Definition event_of_type (data : completion json) (ty : string) : Prop :=
  ∃ msg, data = Normal msg ∧ frame_of_type msg ty.

(** The five ways one dispatch of [ws.on('message')] can end. *)
Inductive handled (ws : nat) (now : Z) (uuid : string) (data : completion json)
    (s : Server) : Server -> list Send -> Prop :=
| handled_refused e :
    e ≠ "Rate limit exceeded" -> e ≠ "Empty message" ->
    handled ws now uuid data s s [(ws, ErrorFrame e)]
| handled_joined name s2 :
    event_of_type data "join" ->
    sid_truthy (bound s ws) = false ->
    (2 <= utf16_length name)%nat ->
    s2 = createSession uuid name now (assign_sessionId ws uuid s) ->
    handled ws now uuid data s s2
      ([(ws, Welcome uuid)] ++ broadcast (Presence "join" name) s2 ++ sendHistory ws s2)
| handled_limited sid rl :
    event_of_type data "message" ->
    bound s ws = Some sid -> sid ≠ "" ->
    rl = rate_limit_update now (rateLimitMap s !! sid) ->
    count rl > RATE_LIMIT_MAX ->
    handled ws now uuid data s (set_rateLimitMap (fun m => <[sid := rl]> m) s)
      [(ws, ErrorFrame "Rate limit exceeded")]
| handled_empty sid rl :
    event_of_type data "message" ->
    bound s ws = Some sid -> sid ≠ "" ->
    rl = rate_limit_update now (rateLimitMap s !! sid) ->
    count rl <= RATE_LIMIT_MAX ->
    handled ws now uuid data s (set_rateLimitMap (fun m => <[sid := rl]> m) s)
      [(ws, ErrorFrame "Empty message")]
| handled_accepted sid rl text user s2 :
    event_of_type data "message" ->
    bound s ws = Some sid -> sid ≠ "" ->
    rl = rate_limit_update now (rateLimitMap s !! sid) ->
    count rl <= RATE_LIMIT_MAX ->
    text ≠ "" ->
    user = match sessions s !! sid with
           | Some se => if String.eqb (username se) "" then "unknown" else username se
           | None => "unknown"
           end ->
    s2 = storeMessage (mkChatMessage uuid user text now)
           (set_rateLimitMap (fun m => <[sid := rl]> m) s) ->
    handled ws now uuid data s s2 (broadcast (Message (mkChatMessage uuid user text now)) s2).

(** A message event of connection [ws]. *)
Definition is_message_event (ws : nat) (e : Event) : bool :=
  match e with
  | Incoming c _ _ (Normal msg) =>
      bool_decide (c = ws)
      && match member msg "type" with
         | Normal type => strict_eq type "message"
         | Throw => false
         end
  | _ => false
  end.

(** How many message events of [ws] a list of events holds. *)
Definition message_events (ws : nat) (es : list Event) : nat :=
  length (filter (fun e => is_message_event ws e = true) es).

(** The event, when it is a message event of [ws], comes no later than
    [RATE_LIMIT_WINDOW] after [t0]. *)
Definition in_window (ws : nat) (t0 : Z) (e : Event) : Prop :=
  match e with
  | Incoming _ now _ _ => is_message_event ws e = true -> now - t0 <= RATE_LIMIT_WINDOW
  | _ => True
  end.

(** The rate limiter's check as the specification words it: reset when no
    state exists or [now - windowStart >= windowDurationMs], increment, allow
    when the count is at most [maxPerWindow]. *)
Definition admit_spec (now : Z) (entry : option RateLimit) : RateLimit * bool :=
  let rl := match entry with
            | Some rl => if decide (now - last rl >= RATE_LIMIT_WINDOW)
                         then mkRateLimit 0 now else rl
            | None => mkRateLimit 0 now
            end in
  let rl := mkRateLimit (count rl + 1) (last rl) in
  (rl, bool_decide (count rl <= RATE_LIMIT_MAX)).

(** What every reachable state satisfies. *)
Record consistent (s : Server) : Prop := mkConsistent {
  clients_nodup : NoDup (clients s);
  clients_known : ∀ c, c ∈ clients s -> is_Some (conns s !! c);
  ids_nonempty : ∀ c sid, bound s c = Some sid -> sid ≠ "";
  ids_distinct : ∀ c1 c2 sid,
    bound s c1 = Some sid -> bound s c2 = Some sid -> c1 = c2;
  bound_session : ∀ c sid,
    c ∈ clients s -> bound s c = Some sid ->
    ∃ se, sessions s !! sid = Some se ∧ id se = sid
          ∧ (2 <= utf16_length (username se))%nat;
  sessions_bound : ∀ sid se,
    sessions s !! sid = Some se -> ∃ c, c ∈ clients s ∧ bound s c = Some sid;
  limits_issued : ∀ sid rl,
    rateLimitMap s !! sid = Some rl -> 1 <= count rl ∧ ∃ c, bound s c = Some sid
}.

(** ** session.ts with the insertion order of its [Map] *)

(** The registry of session.ts as JavaScript keeps it: the entries of
    [const sessions = new Map<string, Session>()] in insertion order.  The
    server model above keeps the same registry as a finite map, which is
    enough for lookups; [listSessions] also shows the order. *)
Module Registry.

Abbreviation t := (list (string * Session)).

(** [new Map()] *)
Definition empty : t := [].

(** [Map.prototype.get] *)
Fixpoint map_get (k : string) (m : t) : option Session :=
  match m with
  | [] => None
  | (k', v) :: rest => if decide (k' = k) then Some v else map_get k rest
  end.

(** [Map.prototype.set]: an existing key keeps its place and takes the new
    value, a new key goes to the end. *)
Fixpoint map_set (k : string) (v : Session) (m : t) : t :=
  match m with
  | [] => [(k, v)]
  | (k', v') :: rest =>
      if decide (k' = k) then (k, v) :: rest else (k', v') :: map_set k v rest
  end.

(** [Map.prototype.delete] *)
Definition map_delete (k : string) (m : t) : t :=
  filter (fun e => e.1 ≠ k) m.

(** [createSession(id, username)]; [now] is what [Date.now()] returns. *)
Definition createSession (sid name : string) (now : Z) (m : t) : Session * t :=
  let session := mkSession sid name now in
  (session, map_set sid session m).

(** [getSession(id)] *)
Definition getSession (sid : string) (m : t) : option Session := map_get sid m.

(** [removeSession(id)] *)
Definition removeSession (sid : string) (m : t) : t := map_delete sid m.

(** [listSessions()]: [Array.from(sessions.values())] *)
Definition listSessions (m : t) : list Session := m.*2.

(** A [Map] holds one entry per key. *)
Definition wf (m : t) : Prop := NoDup m.*1.

(** Every session is stored under its own id. *)
Definition keyed (m : t) : Prop := Forall (fun e => id e.2 = e.1) m.

(** The registry as the finite map of the server model. *)
Definition to_gmap (m : t) : gmap string Session := list_to_map m.

End Registry.

(** The chat messages sent to a connection, in the order of the [send] calls. *)
Definition chat_to (c : nat) (log : list Send) : list ChatMessage :=
  omap (fun x => match x.2 with
                 | Message m => if decide (x.1 = c) then Some m else None
                 | _ => None
                 end) log.

(** The clock of an event that reads it. *)
Definition event_clock (e : Event) : option Z :=
  match e with Incoming _ now _ _ => Some now | _ => None end.

(** The events read a clock that never runs backwards and starts at [t]. *)
Fixpoint clock_monotone (t : Z) (es : list Event) : Prop :=
  match es with
  | [] => True
  | e :: rest =>
      match event_clock e with
      | Some now => t <= now ∧ clock_monotone now rest
      | None => clock_monotone t rest
      end
  end.

(** * Properties *)

(** ** Scenarios of the specification, run on the model *)

Example scenario_A :
  snd <$> exec [Connection 0; Connection 1; Incoming 1 7 "s1" (join_frame "alice")] init []
  = Some [(1%nat, Welcome "s1"); (0%nat, Presence "join" "alice");
          (1%nat, Presence "join" "alice"); (1%nat, History [])].
Proof. vm_compute. reflexivity. Qed.

Example scenario_B :
  snd <$> exec [Connection 0; Incoming 0 7 "s1" (join_frame "alice");
                Incoming 0 8 "m1" (message_frame "hi");
                Connection 1; Incoming 1 9 "s2" (join_frame "bob")] init []
  = Some [(0%nat, Welcome "s1"); (0%nat, Presence "join" "alice"); (0%nat, History []);
          (0%nat, Message (mkChatMessage "m1" "alice" "hi" 8));
          (1%nat, Welcome "s2"); (0%nat, Presence "join" "bob");
          (1%nat, Presence "join" "bob");
          (1%nat, History [mkChatMessage "m1" "alice" "hi" 8])].
Proof. vm_compute. reflexivity. Qed.

Example scenario_C :
  (fun r => (drop 13 (snd r), length (messages (fst r)), rateLimitMap (fst r) !! "s1"))
    <$> exec burst_of_eleven init []
  = Some ([(0%nat, ErrorFrame "Rate limit exceeded")], 10%nat,
          Some (mkRateLimit 11 100)).
Proof. vm_compute. reflexivity. Qed.

Example scenario_D :
  exec [Connection 0; Connection 1; Incoming 0 5 "m1" (message_frame "hi")] init []
  = Some (mkServer ∅ ∅ [] [0%nat; 1%nat]
            {[0%nat := mkConn OPEN None; 1%nat := mkConn OPEN None]},
          [(0%nat, ErrorFrame "Unknown or unauthorized event")]).
Proof. vm_compute. reflexivity. Qed.

Example scenario_E :
  (fun r => (snd r, sessions (fst r), clients (fst r)))
    <$> exec [Connection 0; Connection 1; Incoming 0 7 "s1" (join_frame "alice");
              Close 0] init []
  = Some ([(0%nat, Welcome "s1"); (0%nat, Presence "join" "alice");
           (1%nat, Presence "join" "alice"); (0%nat, History []);
           (1%nat, Presence "leave" "alice")], ∅, [1%nat]).
Proof. vm_compute. reflexivity. Qed.

(** ** The JavaScript tests of the handler *)

Lemma string_test (v : jsval) :
  negb (truthy v) || negb (String.eqb (typeof v) "string") = false
  ↔ ∃ t, v = Some (JStr t) ∧ t ≠ "".
Proof.
  split.
  - destruct v as [[| b | n | t | l | l]|]; simpl; try discriminate.
    + destruct b; discriminate.
    + destruct (n =? 0); discriminate.
    + destruct (String.eqb_spec t ""); simpl; [discriminate|]. eauto.
  - intros (t & -> & Ht). simpl.
    destruct (String.eqb_spec t ""); [contradiction | reflexivity].
Qed.

Lemma sid_truthy_Some (o : option string) :
  sid_truthy o = true ↔ ∃ sid, o = Some sid ∧ sid ≠ "".
Proof.
  destruct o as [x|]; simpl.
  - destruct (String.eqb_spec x ""); simpl; split.
    + discriminate.
    + intros (? & [= <-] & ?). contradiction.
    + eauto.
    + reflexivity.
  - split; [discriminate | intros (? & [=] & _)].
Qed.

Lemma strict_eq_true (v : jsval) (lit : string) :
  strict_eq v lit = true ↔ v = Some (JStr lit).
Proof.
  destruct v as [[| b | n | t | l | l]|]; simpl; try (split; [discriminate | intros [=]]).
  destruct (String.eqb_spec t lit); split; congruence.
Qed.

Lemma member_not_null (msg : json) (key key' : string) (v : jsval) :
  member msg key = Normal v → ∃ v', member msg key' = Normal v'.
Proof. destruct msg; simpl; intros [=]; eauto. Qed.

Lemma string_length_zero (t : string) : String.length t = 0%nat ↔ t = "".
Proof. destruct t; simpl; split; congruence. Qed.

Lemma utf16_from_le (s : string) : ∀ pending pair,
  (utf16_from pending pair s <= String.length s)%nat.
Proof.
  induction s as [| c s IH]; intros pending pair; simpl; [lia |].
  destruct (utf8_tail c) as [n|].
  - specialize (IH n (Nat.eqb n 3)). lia.
  - destruct pending as [| p].
    + specialize (IH 0%nat false). lia.
    + specialize (IH p false). destruct pair; lia.
Qed.

Lemma utf16_length_le (s : string) : (utf16_length s <= String.length s)%nat.
Proof. apply utf16_from_le. Qed.

Lemma utf16_length_zero (s : string) : utf16_length s = 0%nat ↔ s = "".
Proof.
  split; [| by intros ->].
  destruct s as [| c s]; [done |]. unfold utf16_length. simpl.
  destruct (utf8_tail c); discriminate.
Qed.

Example utf16_length_examples :
  utf16_length "alice" = 5%nat ∧ utf16_length "é" = 1%nat
  ∧ utf16_length "日本" = 2%nat ∧ utf16_length "😀" = 2%nat.
Proof. vm_compute. done. Qed.

(** ** The rate-limiter lines *)

Lemma rate_limit_update_count now entry :
  (∀ rl, entry = Some rl → 1 <= count rl) →
  1 <= count (rate_limit_update now entry).
Proof.
  intros H. unfold rate_limit_update.
  destruct entry as [rl|]; simpl.
  - specialize (H rl eq_refl). case_decide; simpl; lia.
  - case_decide; simpl; lia.
Qed.

Lemma rate_limit_update_new now :
  rate_limit_update now None = mkRateLimit 1 now.
Proof.
  unfold rate_limit_update. simpl.
  rewrite decide_False; [done |]. unfold RATE_LIMIT_WINDOW. lia.
Qed.

Lemma rate_limit_update_keep now rl :
  now - last rl <= RATE_LIMIT_WINDOW →
  rate_limit_update now (Some rl) = mkRateLimit (count rl + 1) (last rl).
Proof.
  intros H. unfold rate_limit_update. simpl. rewrite decide_False; [done | lia].
Qed.

Lemma rate_limit_update_reset now rl :
  now - last rl > RATE_LIMIT_WINDOW →
  rate_limit_update now (Some rl) = mkRateLimit 1 now.
Proof.
  intros H. unfold rate_limit_update. simpl. by rewrite decide_True.
Qed.

Lemma rate_limit_update_window now entry :
  now - last (rate_limit_update now entry) <= RATE_LIMIT_WINDOW.
Proof.
  destruct entry as [rl|]; [| rewrite rate_limit_update_new; simpl;
                              unfold RATE_LIMIT_WINDOW; lia].
  destruct (decide (now - last rl > RATE_LIMIT_WINDOW)).
  - rewrite rate_limit_update_reset by done. simpl. unfold RATE_LIMIT_WINDOW. lia.
  - rewrite rate_limit_update_keep by lia. simpl. lia.
Qed.

(** ** One dispatch of the message handler, by cases *)

#[local] Opaque rate_limit_update.

Lemma on_message_cases ws now uuid data s :
  handled ws now uuid data s (on_message ws now uuid data s).1
                             (on_message ws now uuid data s).2.
Proof.
  unfold on_message.
  destruct data as [msg|]; simpl; [| by constructor].
  unfold handle.
  destruct (member msg "type") as [type|] eqn:Hty; simpl; [| by constructor].
  destruct (negb (truthy type) || negb (String.eqb (typeof type) "string")) eqn:Hstr;
    simpl; [by constructor |].
  destruct (strict_eq type "join") eqn:Hjoin.
  { destruct (sid_truthy (bound s ws)) eqn:Hsid; simpl; [by constructor |].
    destruct (member_not_null _ _ "username" _ Hty) as [name ->]. simpl.
    destruct (negb (truthy name) || negb (String.eqb (typeof name) "string")) eqn:Hname;
      simpl; [by constructor |].
    destruct (js_length name <? 2) eqn:Hlen; simpl; [by constructor |].
    apply string_test in Hname as (t & -> & _).
    unfold js_length in Hlen. simpl in *.
    apply strict_eq_true in Hjoin as ->.
    pose proof (utf16_length_le t).
    eapply handled_joined; [by eexists | done | | done]. lia. }
  destruct (strict_eq type "message" && sid_truthy (bound s ws)) eqn:Hmsg;
    simpl; [| by constructor].
  apply andb_prop in Hmsg as [Hmsg Hsid].
  apply strict_eq_true in Hmsg as ->.
  assert (Hev : event_of_type (Normal msg) "message") by (by eexists).
  apply sid_truthy_Some in Hsid as (sid & Hb & Hne). rewrite Hb. simpl.
  destruct (decide (count (rate_limit_update now (rateLimitMap s !! sid)) > RATE_LIMIT_MAX))
    as [Hover|Hok]; simpl.
  { by eapply handled_limited. }
  destruct (member msg "content") as [text|] eqn:Hcontent; [| by destruct msg].
  simpl.
  destruct (negb (truthy text) || negb (String.eqb (typeof text) "string")) eqn:Htext;
    simpl; [eapply handled_empty; [done..| lia] |].
  destruct (js_length text =? 0) eqn:Hlen; simpl;
    [eapply handled_empty; [done..| lia] |].
  apply string_test in Htext as (t & -> & Ht). simpl.
  eapply handled_accepted; [done | done | done | done | lia | done | | done].
  unfold getSession. simpl. reflexivity.
Qed.


(** ** The captured [sessionId] under the state updates *)

Lemma bound_assign ws v s c :
  bound (assign_sessionId ws v s) c
  = if decide (c = ws) then (fun _ => v) <$> conns s !! ws else bound s c.
Proof.
  unfold bound, assign_sessionId. simpl.
  destruct (decide (c = ws)) as [->|Hne].
  - rewrite lookup_alter_eq. by destruct (conns s !! ws).
  - by rewrite lookup_alter_ne.
Qed.

Lemma bound_set_ready rs ws s c :
  bound (set_conns (fun m => alter (fun k => mkConn rs (sessionId k)) ws m) s) c
  = bound s c.
Proof.
  unfold bound. simpl.
  destruct (decide (c = ws)) as [->|Hne].
  - rewrite lookup_alter_eq. by destruct (conns s !! ws).
  - by rewrite lookup_alter_ne.
Qed.

Lemma bound_connect ws s c :
  bound (set_conns (fun m => <[ws := mkConn OPEN None]> m) s) c
  = if decide (c = ws) then None else bound s c.
Proof.
  unfold bound. simpl.
  destruct (decide (c = ws)) as [->|Hne].
  - by rewrite lookup_insert_eq.
  - by rewrite lookup_insert_ne.
Qed.

Lemma fresh_not_bound uuid s c : fresh uuid s → bound s c ≠ Some uuid.
Proof.
  intros [_ Hall] Hb. unfold bound in Hb.
  destruct (conns s !! c) as [k|] eqn:Hk; [| discriminate].
  exact (Hall c k Hk Hb).
Qed.

Lemma bound_falsy s c sid :
  consistent s → sid_truthy (bound s c) = false → bound s c ≠ Some sid.
Proof.
  intros Hs Hf Hb.
  assert (sid_truthy (bound s c) = true); [| congruence].
  apply sid_truthy_Some. exists sid. split; [done |]. by eapply ids_nonempty.
Qed.

(** ** Every reachable state is consistent *)

Lemma consistent_init : consistent init.
Proof.
  split; simpl; try (intros; set_solver). constructor.
Qed.

Lemma consistent_connect ws s :
  consistent s → conns s !! ws = None →
  consistent (set_clients (fun l => l ++ [ws])
                (set_conns (fun m => <[ws := mkConn OPEN None]> m) s)).
Proof.
  intros Hs Hnew.
  assert (Hnotin : ws ∉ clients s).
  { intros Hin. apply (clients_known _ Hs) in Hin as [? ?]. congruence. }
  assert (Hb : ∀ c sid, bound (set_clients (fun l => l ++ [ws])
                (set_conns (fun m => <[ws := mkConn OPEN None]> m) s)) c = Some sid →
              c ≠ ws ∧ bound s c = Some sid).
  { intros c sid. change (bound (set_clients _ ?x) c) with (bound x c).
    rewrite bound_connect. case_decide; [discriminate | done]. }
  split; simpl.
  - apply NoDup_app. split; [apply Hs |]. split; [| apply NoDup_singleton].
    intros x Hx Hx'. apply list_elem_of_singleton in Hx'. by subst.
  - intros c Hc. apply elem_of_app in Hc as [Hc | Hc].
    + destruct (decide (c = ws)) as [->|Hne]; [by rewrite lookup_insert_eq |].
      rewrite lookup_insert_ne by done. by apply Hs.
    + apply list_elem_of_singleton in Hc as ->. by rewrite lookup_insert_eq.
  - intros c sid H. apply Hb in H as [_ H]. by eapply ids_nonempty.
  - intros c1 c2 sid H1 H2. apply Hb in H1 as [_ H1]. apply Hb in H2 as [_ H2].
    by eapply ids_distinct.
  - intros c sid Hc H. apply Hb in H as [Hne H].
    apply elem_of_app in Hc as [Hc | Hc].
    + by eapply bound_session.
    + apply list_elem_of_singleton in Hc. contradiction.
  - intros sid se Hse. destruct (sessions_bound _ Hs _ _ Hse) as (c & Hc & Hbc).
    exists c. split; [apply elem_of_app; by left |].
    change (bound (set_clients _ ?x) c) with (bound x c).
    rewrite bound_connect. case_decide; [| done]. subst. contradiction.
  - intros sid rl Hrl. destruct (limits_issued _ Hs _ _ Hrl) as (Hcount & c & Hbc).
    split; [done |]. exists c.
    change (bound (set_clients _ ?x) c) with (bound x c).
    rewrite bound_connect. case_decide; [| done]. subst.
    unfold bound in Hbc. by rewrite Hnew in Hbc.
Qed.

Lemma consistent_drop rs ws s :
  consistent s →
  consistent (set_conns (fun m => alter (fun k => mkConn rs (sessionId k)) ws m) s).
Proof.
  intros Hs.
  split; try setoid_rewrite bound_set_ready; simpl; try apply Hs.
  intros c Hc. apply (clients_known _ Hs) in Hc as [k Hk].
  destruct (decide (c = ws)) as [->|Hne].
  - rewrite lookup_alter_eq, Hk. by eexists.
  - rewrite lookup_alter_ne by done. by eexists.
Qed.

Lemma consistent_join ws uuid name now s :
  consistent s → ws ∈ clients s → fresh uuid s →
  sid_truthy (bound s ws) = false → (2 <= utf16_length name)%nat →
  consistent (createSession uuid name now (assign_sessionId ws uuid s)).
Proof.
  intros Hs Hws Hfresh Hnull Hname.
  pose proof (clients_known _ Hs _ Hws) as [k Hk].
  assert (Hb : ∀ c, bound (createSession uuid name now (assign_sessionId ws uuid s)) c
                    = if decide (c = ws) then Some uuid else bound s c).
  { intros c. change (bound (createSession _ _ _ ?x) c) with (bound x c).
    rewrite bound_assign, Hk. done. }
  split; try setoid_rewrite Hb; simpl.
  - apply Hs.
  - intros c Hc. apply (clients_known _ Hs) in Hc as [k' Hk'].
    destruct (decide (c = ws)) as [->|Hne].
    + rewrite lookup_alter_eq, Hk. by eexists.
    + rewrite lookup_alter_ne by done. by eexists.
  - intros c sid. case_decide.
    + intros [= <-]. apply Hfresh.
    + by eapply ids_nonempty.
  - intros c1 c2 sid. repeat case_decide; subst; try done.
    + intros [= <-] H2. by apply fresh_not_bound in H2.
    + intros H1 [= <-]. by apply fresh_not_bound in H1.
    + by eapply ids_distinct.
  - intros c sid Hc. case_decide.
    + intros [= <-]. rewrite lookup_insert_eq. by eexists.
    + intros Hbc. rewrite lookup_insert_ne.
      * by eapply bound_session.
      * intros <-. by apply fresh_not_bound in Hbc.
  - intros sid se. destruct (decide (uuid = sid)) as [<-|Hne].
    + intros _. exists ws. by rewrite decide_True.
    + rewrite lookup_insert_ne by done. intros Hse.
      destruct (sessions_bound _ Hs _ _ Hse) as (c & Hc & Hbc).
      exists c. split; [done |]. case_decide; [| done].
      subst. by apply (bound_falsy _ _ sid Hs) in Hnull.
  - intros sid rl Hrl. destruct (limits_issued _ Hs _ _ Hrl) as (Hcount & c & Hbc).
    split; [done |]. exists c. case_decide; [| done].
    subst. by apply (bound_falsy _ _ sid Hs) in Hnull.
Qed.

Lemma consistent_limit ws sid now s :
  consistent s → bound s ws = Some sid →
  consistent (set_rateLimitMap
                (fun m => <[sid := rate_limit_update now (rateLimitMap s !! sid)]> m) s).
Proof.
  intros Hs Hb.
  split; simpl; try apply Hs.
  intros sid' rl. destruct (decide (sid = sid')) as [<-|Hne].
  - rewrite lookup_insert_eq. intros [= <-]. split; [| by exists ws].
    apply rate_limit_update_count. intros rl0 Hrl0.
    by apply (limits_issued _ Hs) in Hrl0 as [? _].
  - rewrite lookup_insert_ne by done. apply Hs.
Qed.

Lemma consistent_store m s : consistent s → consistent (storeMessage m s).
Proof. intros Hs. split; simpl; apply Hs. Qed.

Lemma consistent_trim n s : consistent s → consistent (trimHistory n s).
Proof. intros Hs. split; simpl; apply Hs. Qed.

Lemma on_close_state ws s :
  (on_close ws s).1
  = if sid_truthy (bound s ws) then removeSession (default "" (bound s ws)) s else s.
Proof.
  unfold on_close. destruct (sid_truthy (bound s ws)); [| done].
  destruct (username <$> getSession _ s) as [u|]; [| done].
  by destruct (String.eqb u "").
Qed.

Lemma bound_on_close ws s c : bound (on_close ws s).1 c = bound s c.
Proof. rewrite on_close_state. by destruct (sid_truthy (bound s ws)). Qed.

Lemma on_close_output ws s :
  (on_close ws s).2 = []
  ∨ ∃ u, (on_close ws s).2 = broadcast (Presence "leave" u) (on_close ws s).1.
Proof.
  unfold on_close. destruct (sid_truthy (bound s ws)); [| by left].
  destruct (username <$> getSession _ s) as [u|]; [| by left].
  destruct (String.eqb u ""); [by left | right; by exists u].
Qed.

Lemma consistent_close ws s :
  consistent s → ws ∈ clients s → consistent (step (Close ws) s).1.
Proof.
  intros Hs Hws. simpl. rewrite on_close_state.
  set (s0 := set_clients _ _).
  assert (Hb : ∀ c, bound s0 c = bound s c).
  { intros c. unfold s0. change (bound (set_clients _ ?x) c) with (bound x c).
    apply bound_set_ready. }
  assert (Hcl : ∀ c, c ∈ clients s0 ↔ c ≠ ws ∧ c ∈ clients s).
  { intros c. unfold s0. simpl. by rewrite list_elem_of_filter. }
  assert (Hknown : ∀ c, c ∈ clients s0 → is_Some (conns s0 !! c)).
  { intros c Hc. apply Hcl in Hc as [Hne Hc].
    apply (clients_known _ Hs) in Hc as [k Hk].
    unfold s0. simpl. rewrite lookup_alter_ne by done. by eexists. }
  assert (Hnodup : NoDup (clients s0)).
  { unfold s0. simpl. apply NoDup_filter, Hs. }
  destruct (sid_truthy (bound s0 ws)) eqn:Htruthy.
  - apply sid_truthy_Some in Htruthy as (sid & Hsid & Hne). rewrite Hsid. simpl.
    rewrite Hb in Hsid.
    split; try setoid_rewrite Hb; simpl; try done; try apply Hs.
    + intros c sid' Hc Hbc. apply Hcl in Hc as [Hcne Hc].
      rewrite lookup_delete_ne; [by eapply bound_session |].
      intros <-. apply Hcne. by eapply ids_distinct.
    + intros sid' se Hse. apply lookup_delete_Some in Hse as [Hsne Hse].
      destruct (sessions_bound _ Hs _ _ Hse) as (c & Hc & Hbc).
      exists c. split; [| done]. apply Hcl. split; [| done].
      intros ->. congruence.
  - split; try setoid_rewrite Hb; simpl; try done; try apply Hs.
    + intros c sid' Hc Hbc. apply Hcl in Hc as [Hcne Hc]. by eapply bound_session.
    + intros sid' se Hse.
      destruct (sessions_bound _ Hs _ _ Hse) as (c & Hc & Hbc).
      exists c. split; [| done]. apply Hcl. split; [| done].
      intros ->. rewrite Hb in Htruthy. by apply (bound_falsy _ _ sid' Hs) in Htruthy.
Qed.

Lemma consistent_step e s :
  consistent s → enabled e s → consistent (step e s).1.
Proof.
  intros Hs Hen. destruct e as [ws | ws now uuid data | ws | ws | n].
  - by apply consistent_connect.
  - destruct Hen as (Hws & _ & Hfresh). simpl.
    destruct (on_message_cases ws now uuid data s); subst.
    + done.
    + by apply consistent_join.
    + by apply (consistent_limit ws).
    + by apply (consistent_limit ws).
    + by apply consistent_store, (consistent_limit ws).
  - exact (consistent_drop CLOSING ws s Hs).
  - by apply consistent_close.
  - by apply consistent_trim.
Qed.

Lemma reachable_consistent s log : reachable s log → consistent s.
Proof.
  induction 1 as [| s log e s' out _ IH Hen Hstep].
  - apply consistent_init.
  - replace s' with (step e s).1 by (by rewrite Hstep). by apply consistent_step.
Qed.

Lemma exec_reachable evs s log r :
  reachable s log → exec evs s log = Some r → reachable r.1 r.2.
Proof.
  revert s log. induction evs as [| e rest IH]; intros s log Hr; simpl.
  - by intros [= <-].
  - case_decide as Hen; [| discriminate].
    destruct (step e s) as [s' out] eqn:Hstep.
    apply IH. by eapply reachable_step.
Qed.

(** ** The branches of the message handler *)

Lemma frame_type_test msg ty :
  frame_of_type msg ty → ty ≠ "" →
  ∃ type, member msg "type" = Normal type
    ∧ negb (truthy type) || negb (String.eqb (typeof type) "string") = false
    ∧ ∀ lit, strict_eq type lit = String.eqb ty lit.
Proof.
  intros Hty Hne. exists (Some (JStr ty)). split; [done |]. split; [| done].
  apply string_test. eauto.
Qed.

Lemma on_message_joined ws now uuid msg s :
  frame_of_type msg "join" → sid_truthy (bound s ws) = true →
  on_message ws now uuid (Normal msg) s = (s, [(ws, ErrorFrame "Already joined")]).
Proof.
  intros Hty Hsid. unfold on_message, handle. simpl.
  destruct (frame_type_test _ _ Hty) as (type & -> & Hstr & Heq); [done |].
  simpl. by rewrite Hstr, Heq, Hsid.
Qed.

Lemma on_message_join ws now uuid msg name s :
  frame_of_type msg "join" → sid_truthy (bound s ws) = false →
  member msg "username" = Normal (Some (JStr name)) →
  (2 <= utf16_length name)%nat →
  on_message ws now uuid (Normal msg) s
  = let s2 := createSession uuid name now (assign_sessionId ws uuid s) in
    (s2, [(ws, Welcome uuid)] ++ broadcast (Presence "join" name) s2 ++ sendHistory ws s2).
Proof.
  intros Hty Hsid Hname Hlen. unfold on_message, handle. simpl.
  destruct (frame_type_test _ _ Hty) as (type & -> & Hstr & Heq); [done |].
  simpl. rewrite Hstr, Heq, Hsid, Hname. simpl.
  destruct (String.eqb_spec name "") as [-> | _]; [vm_compute in Hlen; lia |].
  simpl. unfold js_length. simpl.
  destruct (Z.ltb_spec (Z.of_nat (utf16_length name)) 2); [lia | done].
Qed.

Lemma on_message_unbound ws now uuid msg s :
  frame_of_type msg "message" → sid_truthy (bound s ws) = false →
  on_message ws now uuid (Normal msg) s
  = (s, [(ws, ErrorFrame "Unknown or unauthorized event")]).
Proof.
  intros Hty Hsid. unfold on_message, handle. simpl.
  destruct (frame_type_test _ _ Hty) as (type & -> & Hstr & Heq); [done |].
  simpl. by rewrite Hstr, !Heq, Hsid.
Qed.

(** What the message branch does once the sender is bound to [sid]. *)
Lemma on_message_message ws now uuid msg sid s :
  frame_of_type msg "message" → bound s ws = Some sid → sid ≠ "" →
  on_message ws now uuid (Normal msg) s
  = let rl := rate_limit_update now (rateLimitMap s !! sid) in
    let s1 := set_rateLimitMap (fun m => <[sid := rl]> m) s in
    if decide (count rl > RATE_LIMIT_MAX) then
      (s1, [(ws, ErrorFrame "Rate limit exceeded")])
    else
      match member msg "content" with
      | Normal (Some (JStr text)) =>
          if decide (text = "") then (s1, [(ws, ErrorFrame "Empty message")])
          else
            let user := match sessions s !! sid with
                        | Some se => if String.eqb (username se) "" then "unknown"
                                     else username se
                        | None => "unknown"
                        end in
            let s2 := storeMessage (mkChatMessage uuid user text now) s1 in
            (s2, broadcast (Message (mkChatMessage uuid user text now)) s2)
      | _ => (s1, [(ws, ErrorFrame "Empty message")])
      end.
Proof.
  intros Hty Hb Hne. unfold on_message, handle. simpl.
  destruct (frame_type_test _ _ Hty) as (type & Hm & Hstr & Heq); [done |].
  rewrite Hm. simpl. rewrite Hstr, !Heq, Hb. simpl.
  destruct (String.eqb_spec sid ""); [contradiction |]. simpl.
  case_decide; [done |].
  destruct (member_not_null _ _ "content" _ Hm) as [text ->]. simpl.
  destruct text as [[| b | k | t | l | l]|]; simpl; try done.
  - by destruct b.
  - by destruct (k =? 0).
  - destruct (String.eqb_spec t "") as [-> | Ht]; simpl.
    + done.
    + destruct (decide (t = "")) as [? | _]; [done |]. unfold js_length. simpl.
      destruct (Z.eqb_spec (Z.of_nat (utf16_length t)) 0) as [H0 | _]; [| done].
      assert (H1 : utf16_length t = 0%nat) by lia. by apply utf16_length_zero in H1.
Qed.

Lemma after_reachable evs : reachable (after evs).1 (after evs).2.
Proof.
  unfold after. destruct (exec evs init []) as [r|] eqn:Hr; simpl.
  - eapply exec_reachable; [apply reachable_init | done].
  - apply reachable_init.
Qed.

(** ** Broadcast *)

Lemma broadcast_elem data s c f :
  (c, f) ∈ broadcast data s ↔ f = data ∧ c ∈ clients s ∧ ready s c = Some OPEN.
Proof.
  unfold broadcast. rewrite list_elem_of_fmap. split.
  - intros (c' & [= -> ->] & Hc). apply list_elem_of_filter in Hc. tauto.
  - intros (-> & Hc & Hopen). exists c. split; [done |].
    apply list_elem_of_filter. tauto.
Qed.

Lemma filter_all_but {A : Type} `{EqDecision A} (P : A → Prop) `{∀ x, Decision (P x)}
    (l : list A) (a : A) :
  ¬ P a → (∀ x, x ∈ l → x ≠ a → P x) →
  filter P l = filter (fun x => x ≠ a) l.
Proof.
  intros Ha. induction l as [| x l IH]; intros Hl; [done |].
  destruct (decide (x = a)) as [-> | Hne].
  - rewrite !filter_cons_False by naive_solver. apply IH. set_solver.
  - rewrite !filter_cons_True; [| done | apply Hl; set_solver].
    f_equal. apply IH. set_solver.
Qed.

Lemma length_filter_remove {A : Type} `{EqDecision A} (l : list A) (a : A) :
  NoDup l → a ∈ l → length (filter (fun x => x ≠ a) l) = (length l - 1)%nat.
Proof.
  induction 1 as [| x l Hx Hnd IH]; intros Ha.
  - by apply elem_of_nil in Ha.
  - destruct (decide (x = a)) as [-> | Hne].
    + rewrite filter_cons_False by naive_solver. simpl.
      rewrite Nat.sub_0_r. f_equal.
      clear IH Hnd Ha. induction l as [| y l IH]; [done |].
      rewrite filter_cons_True.
      * simpl. f_equal. apply IH. set_solver.
      * set_solver.
    + rewrite filter_cons_True by done. simpl.
      apply elem_of_cons in Ha as [-> | Ha]; [done |].
      rewrite IH by done. destruct l; [by apply elem_of_nil in Ha | simpl; lia].
Qed.

(** C9: a broadcast over N registered connections, one of which is not OPEN
    while the others are, makes exactly one send call per open connection, in
    the order of the client set: N-1 calls, every open connection gets the
    event, and no call is made on the closed one. *)
Theorem broadcast_isolation (data : Frame) (s : Server) (closed : nat) :
  NoDup (clients s) →
  closed ∈ clients s →
  ready s closed ≠ Some OPEN →
  (∀ c, c ∈ clients s → c ≠ closed → ready s c = Some OPEN) →
  broadcast data s = (fun c => (c, data)) <$> filter (fun c => c ≠ closed) (clients s)
  ∧ length (broadcast data s) = (length (clients s) - 1)%nat
  ∧ (∀ c, c ∈ clients s → c ≠ closed → (c, data) ∈ broadcast data s)
  ∧ (∀ f, (closed, f) ∉ broadcast data s).
Proof.
  intros Hnd Hin Hclosed Hopen.
  assert (Heq : broadcast data s
                = (fun c => (c, data)) <$> filter (fun c => c ≠ closed) (clients s)).
  { unfold broadcast. f_equal. by apply filter_all_but. }
  split; [done |]. split; [| split].
  - rewrite Heq, length_fmap. by apply length_filter_remove.
  - intros c Hc Hne. apply broadcast_elem. auto.
  - intros f Hf. apply broadcast_elem in Hf as (_ & _ & Hf). contradiction.
Qed.

Lemma broadcast_isolation_witness :
  broadcast (Presence "join" "alice") three_clients
  = [(0%nat, Presence "join" "alice"); (2%nat, Presence "join" "alice")].
Proof.
  refine (eq_trans (proj1 (broadcast_isolation _ three_clients 1%nat _ _ _ _)) _).
  - apply (bool_decide_unpack _). vm_compute. reflexivity.
  - apply (bool_decide_unpack _). vm_compute. reflexivity.
  - vm_compute. discriminate.
  - intros c Hc Hne. simpl in Hc.
    repeat (apply elem_of_cons in Hc as [-> | Hc]); try done.
    by apply elem_of_nil in Hc.
  - vm_compute. reflexivity.
Defined.

(** ** Sequencing errors *)

(** C8: a message event on a connection with no bound session id is answered
    with the single frame "Unknown or unauthorized event" on that connection
    and leaves the whole server state as it was. *)
Theorem message_before_join (ws : nat) (now : Z) (uuid : string) (msg : json)
    (s : Server) :
  bound s ws = None →
  frame_of_type msg "message" →
  on_message ws now uuid (Normal msg) s
  = (s, [(ws, ErrorFrame "Unknown or unauthorized event")]).
Proof.
  intros Hb Hty. apply on_message_unbound; [done |]. by rewrite Hb.
Qed.

Lemma message_before_join_witness :
  on_message 0 5 "m1" (message_frame "hi") three_clients
  = (three_clients, [(0%nat, ErrorFrame "Unknown or unauthorized event")]).
Proof.
  apply (message_before_join 0 5 "m1" _ three_clients); reflexivity.
Defined.

(** C6: on a connection that holds a session id, a join event is answered
    with the single frame "Already joined" on that connection and the server
    state (sessions, rate limits, history, connections) stays exactly as it
    was, so no session is created and no welcome, presence or history frame
    is sent. *)
Theorem second_join_rejected (s : Server) (log : list Send) (ws : nat)
    (sid : string) (now : Z) (uuid : string) (msg : json) :
  reachable s log →
  bound s ws = Some sid →
  frame_of_type msg "join" →
  on_message ws now uuid (Normal msg) s = (s, [(ws, ErrorFrame "Already joined")]).
Proof.
  intros Hr Hb Hty. apply on_message_joined; [done |].
  apply sid_truthy_Some. exists sid. split; [done |].
  eapply ids_nonempty; [by eapply reachable_consistent | done].
Qed.

Lemma second_join_rejected_witness :
  let s := (after [Connection 0; Incoming 0 7 "s1" (join_frame "alice")]).1 in
  on_message 0 9 "s2" (join_frame "bob") s = (s, [(0%nat, ErrorFrame "Already joined")]).
Proof.
  intros s.
  eapply (second_join_rejected s _ 0%nat "s1" 9 "s2").
  - apply after_reachable.
  - vm_compute. reflexivity.
  - reflexivity.
Defined.

(** ** Join *)

Lemma slice_last_length {A : Type} (n : nat) (l : list A) :
  length (slice_last n l) = (n `min` length l)%nat.
Proof. unfold slice_last. rewrite length_drop. lia. Qed.

Lemma slice_last_suffix {A : Type} (n : nat) (l : list A) :
  take (length l - n) l ++ slice_last n l = l.
Proof. apply take_drop. Qed.

Lemma sent_to_app ws kind log out :
  sent_to ws kind (log ++ out) = (sent_to ws kind log + sent_to ws kind out)%nat.
Proof. unfold sent_to. by rewrite filter_app, length_app. Qed.

Lemma sent_to_broadcast ws kind data s :
  kind data = false → sent_to ws kind (broadcast data s) = 0%nat.
Proof.
  intros Hk. unfold sent_to, broadcast.
  induction (filter _ (clients s)) as [| c l IH]; [done |].
  simpl. rewrite filter_cons_False; [done |]. simpl. intros [_ ?]. congruence.
Qed.

Lemma sent_to_error ws kind c e :
  kind (ErrorFrame e) = false → sent_to ws kind [(c, ErrorFrame e)] = 0%nat.
Proof.
  intros Hk. unfold sent_to. rewrite filter_cons_False; [done |].
  simpl. intros [_ ?]. congruence.
Qed.

Lemma sent_to_hit ws kind f log :
  kind f = true → sent_to ws kind ((ws, f) :: log) = S (sent_to ws kind log).
Proof. intros Hk. unfold sent_to. by rewrite filter_cons_True. Qed.

Lemma sent_to_miss ws kind c f log :
  c ≠ ws ∨ kind f = false → sent_to ws kind ((c, f) :: log) = sent_to ws kind log.
Proof.
  intros Hk. unfold sent_to. rewrite filter_cons_False; [done |].
  simpl. intros [? ?]. destruct Hk; congruence.
Qed.

(** A connection has been sent one welcome and one history frame if it holds
    a session id, and none otherwise. *)
Lemma welcome_history_once s log ws :
  reachable s log →
  sent_to ws is_welcome log = (if bound s ws is Some _ then 1 else 0)%nat
  ∧ sent_to ws is_history log = (if bound s ws is Some _ then 1 else 0)%nat.
Proof.
  intros Hr. revert ws.
  induction Hr as [| s log e s' out Hr IH Hen Hstep]; intros ws; [done |].
  pose proof (reachable_consistent _ _ Hr) as Hs.
  rewrite !sent_to_app. destruct (IH ws) as [-> ->]. clear IH.
  assert (Hsame : bound s' ws = bound s ws →
                  sent_to ws is_welcome out = 0%nat →
                  sent_to ws is_history out = 0%nat →
    ((if bound s ws is Some _ then 1 else 0) + sent_to ws is_welcome out)%nat
      = (if bound s' ws is Some _ then 1 else 0)%nat
    ∧ ((if bound s ws is Some _ then 1 else 0) + sent_to ws is_history out)%nat
      = (if bound s' ws is Some _ then 1 else 0)%nat).
  { intros -> -> ->. lia. }
  destruct e as [c | c now uuid data | c | c | n]; simpl in Hstep.
  5:{ injection Hstep as <- <-. by apply Hsame. }
  - injection Hstep as <- <-. apply Hsame; [| done..].
    change (bound (set_clients _ ?x) ws) with (bound x ws).
    rewrite bound_connect. case_decide; [| done]. subst.
    unfold bound. by rewrite Hen.
  - destruct Hen as (Hc & _ & Hfresh).
    pose proof (on_message_cases c now uuid data s) as Hcases.
    rewrite Hstep in Hcases. simpl in Hcases.
    destruct Hcases as [e ? ? | name s2 _ Hnull Hname -> | sid rl _ Hb ? -> ?
                       | sid rl _ Hb ? -> ? | sid rl text user s2 _ Hb ? -> ? ? ? ->].
    + apply Hsame; [done | by apply sent_to_error..].
    + destruct (clients_known _ Hs _ Hc) as [k Hk].
      change (bound (createSession _ _ _ ?x) ws) with (bound x ws).
      rewrite bound_assign, Hk. simpl.
      simpl. unfold sendHistory. clear Hsame.
      destruct (decide (ws = c)) as [-> | Hne].
      * assert (bound s c = None) as ->.
        { destruct (bound s c) as [x|] eqn:Hx; [| done].
          rewrite <- Hx in Hnull. by apply (bound_falsy _ _ x Hs) in Hnull. }
        rewrite (sent_to_hit c is_welcome) by done.
        rewrite (sent_to_miss c is_history) by (by right).
        rewrite !sent_to_app, !sent_to_broadcast by done.
        rewrite (sent_to_hit c is_history) by done.
        rewrite (sent_to_miss c is_welcome) by (by right). done.
      * rewrite !(sent_to_miss ws _ c) by (left; congruence).
        rewrite !sent_to_app, !sent_to_broadcast by done.
        rewrite !(sent_to_miss ws _ c) by (left; congruence).
        unfold sent_to. simpl. split; lia.
    + apply Hsame; [done | by apply sent_to_error..].
    + apply Hsame; [done | by apply sent_to_error..].
    + apply Hsame; [done | by apply sent_to_broadcast..].
  - injection Hstep as <- <-. apply Hsame; [| done..]. apply bound_set_ready.
  - match type of Hstep with on_close _ ?s0 = _ =>
      pose proof (bound_on_close c s0 ws) as Hb;
      pose proof (on_close_output c s0) as Hout
    end.
    rewrite Hstep in Hb, Hout. simpl in Hb, Hout.
    apply Hsame.
    + rewrite Hb. apply (bound_set_ready CLOSED c s ws).
    + destruct Hout as [-> | [u ->]]; [done | by apply sent_to_broadcast].
    + destruct Hout as [-> | [u ->]]; [done | by apply sent_to_broadcast].
Qed.

(** C2: a successful join sends, in this order, the welcome frame with the
    new session id to the joining connection, the presence announcement to
    the open connections, and one history frame to the joining connection.
    The history frame holds the last min(50, n) of the n messages the store
    holds at the join (all accepted before it), in acceptance order; the
    join itself accepts no message.
    Over its whole life a connection is sent at most one history frame. *)
Theorem join_welcome_then_history (s : Server) (log : list Send) (ws : nat)
    (now : Z) (uuid : string) (msg : json) (name : string) :
  reachable s log →
  enabled (Incoming ws now uuid (Normal msg)) s →
  bound s ws = None →
  frame_of_type msg "join" →
  member msg "username" = Normal (Some (JStr name)) →
  (2 <= utf16_length name)%nat →
  ∃ s' out announced,
    on_message ws now uuid (Normal msg) s = (s', out)
    ∧ out = (ws, Welcome uuid) :: announced
              ++ [(ws, History (slice_last 50 (messages s)))]
    ∧ Forall (fun x => x.2 = Presence "join" name) announced
    ∧ bound s' ws = Some uuid
    ∧ messages s' = messages s
    ∧ length (slice_last 50 (messages s)) = (50 `min` length (messages s))%nat
    ∧ take (length (messages s) - 50) (messages s) ++ slice_last 50 (messages s)
      = messages s
    ∧ sent_to ws is_welcome (log ++ out) = 1%nat
    ∧ sent_to ws is_history (log ++ out) = 1%nat
    ∧ (∀ s2 log2, reachable s2 log2 → (sent_to ws is_history log2 <= 1)%nat).
Proof.
  intros Hr Hen Hb Hty Hname Hlen.
  pose proof (on_message_join ws now uuid msg name s Hty) as Hjoin.
  rewrite Hb in Hjoin. specialize (Hjoin eq_refl Hname Hlen). simpl in Hjoin.
  set (s' := createSession uuid name now (assign_sessionId ws uuid s)) in *.
  exists s', ((ws, Welcome uuid) :: broadcast (Presence "join" name) s'
                ++ sendHistory ws s'), (broadcast (Presence "join" name) s').
  assert (Hr' : reachable s' (log ++ (ws, Welcome uuid)
                   :: broadcast (Presence "join" name) s' ++ sendHistory ws s')).
  { by eapply reachable_step. }
  assert (Hb' : bound s' ws = Some uuid).
  { destruct Hen as (Hws & _ & _).
    destruct (clients_known _ (reachable_consistent _ _ Hr) _ Hws) as [k Hk].
    unfold s'. change (bound (createSession _ _ _ ?x) ws) with (bound x ws).
    by rewrite bound_assign, decide_True, Hk. }
  split; [done |]. split; [done |]. split.
  { apply Forall_forall. intros [c f] Hin. by apply broadcast_elem in Hin as [-> _]. }
  split; [done |]. split; [done |].
  split; [apply slice_last_length |]. split; [apply slice_last_suffix |].
  destruct (welcome_history_once _ _ ws Hr') as [Hw Hh]. rewrite Hb' in Hw, Hh.
  split; [done |]. split; [done |].
  intros s2 log2 Hr2. destruct (welcome_history_once _ _ ws Hr2) as [_ ->].
  destruct (bound s2 ws); lia.
Qed.

Lemma join_welcome_then_history_witness :
  let r := after [Connection 0; Incoming 0 7 "s1" (join_frame "alice");
                  Incoming 0 8 "m1" (message_frame "hi"); Connection 1] in
  ∃ s' out announced,
    on_message 1 9 "s2" (join_frame "bob") r.1 = (s', out)
    ∧ out = (1%nat, Welcome "s2") :: announced
              ++ [(1%nat, History (slice_last 50 (messages r.1)))]
    ∧ Forall (fun x => x.2 = Presence "join" "bob") announced
    ∧ bound s' 1%nat = Some "s2"
    ∧ messages s' = messages r.1
    ∧ length (slice_last 50 (messages r.1)) = (50 `min` length (messages r.1))%nat
    ∧ take (length (messages r.1) - 50) (messages r.1) ++ slice_last 50 (messages r.1)
      = messages r.1
    ∧ sent_to 1%nat is_welcome (r.2 ++ out) = 1%nat
    ∧ sent_to 1%nat is_history (r.2 ++ out) = 1%nat
    ∧ (∀ s2 log2, reachable s2 log2 → (sent_to 1%nat is_history log2 <= 1)%nat).
Proof.
  intros r.
  apply (join_welcome_then_history r.1 r.2 1%nat 9 "s2" _ "bob").
  - apply after_reachable.
  - apply (bool_decide_unpack _). vm_compute. reflexivity.
  - vm_compute. reflexivity.
  - reflexivity.
  - reflexivity.
  - vm_compute. lia.
Defined.

(** ** Sessions of registered connections *)

(** C10: in a reachable state the session id held by a registered (not yet
    closed) connection names a session of the registry, with that id and a
    non-empty user name.  So a message event of that connection either ends
    in a single error frame and stores nothing, or stores and broadcasts a
    message whose sender is the session's user name (never the fallback);
    and closing the connection removes the session and broadcasts the leave
    event with that user name. *)
Theorem bound_session_present (s : Server) (log : list Send) (ws : nat)
    (sid : string) :
  reachable s log →
  ws ∈ clients s →
  bound s ws = Some sid →
  ∃ se, sessions s !! sid = Some se ∧ id se = sid ∧ username se ≠ ""
    ∧ (∀ now uuid msg, frame_of_type msg "message" →
         let r := on_message ws now uuid (Normal msg) s in
         (messages r.1 = messages s ∧ ∃ e, r.2 = [(ws, ErrorFrame e)])
         ∨ ∃ text, messages r.1
                   = messages s ++ [mkChatMessage uuid (username se) text now]
             ∧ r.2 = broadcast (Message (mkChatMessage uuid (username se) text now)) r.1)
    ∧ sessions (step (Close ws) s).1 = delete sid (sessions s)
    ∧ (step (Close ws) s).2
      = broadcast (Presence "leave" (username se)) (step (Close ws) s).1.
Proof.
  intros Hr Hws Hb.
  pose proof (reachable_consistent _ _ Hr) as Hs.
  destruct (bound_session _ Hs _ _ Hws Hb) as (se & Hse & Hid & Hlen).
  assert (Hname : username se ≠ "").
  { intros Heq. rewrite Heq in Hlen. vm_compute in Hlen. lia. }
  assert (Hneq : String.eqb (username se) "" = false).
  { by destruct (String.eqb_spec (username se) ""). }
  pose proof (ids_nonempty _ Hs _ _ Hb) as Hsid.
  exists se. split; [done |]. split; [done |]. split; [done |]. split; [| split].
  - intros now uuid msg Hty r. unfold r.
    rewrite (on_message_message ws now uuid msg sid s Hty Hb Hsid). simpl.
    rewrite Hse, Hneq.
    case_decide; [left; split; [done | by eexists] |].
    destruct (member msg "content") as [[[| b | k | t | l | l]|]|];
      try (left; split; [done | by eexists]).
    case_decide; [left; split; [done | by eexists] |]. right. by exists t.
  - simpl. rewrite on_close_state.
    change (bound (set_clients _ ?x) ws) with (bound x ws).
    rewrite bound_set_ready, Hb. simpl.
    by destruct (String.eqb_spec sid "").
  - simpl. unfold on_close.
    change (bound (set_clients _ ?x) ws) with (bound x ws).
    rewrite bound_set_ready, Hb. simpl.
    destruct (String.eqb_spec sid ""); [done |]. simpl.
    unfold getSession. simpl. rewrite Hse. simpl. by rewrite Hneq.
Qed.

Lemma bound_session_present_witness :
  let s := (after [Connection 0; Connection 1;
                   Incoming 0 7 "s1" (join_frame "alice")]).1 in
  ∃ se, sessions s !! "s1" = Some se ∧ id se = "s1" ∧ username se ≠ ""
    ∧ (∀ now uuid msg, frame_of_type msg "message" →
         let r := on_message 0 now uuid (Normal msg) s in
         (messages r.1 = messages s ∧ ∃ e, r.2 = [(0%nat, ErrorFrame e)])
         ∨ ∃ text, messages r.1
                   = messages s ++ [mkChatMessage uuid (username se) text now]
             ∧ r.2 = broadcast (Message (mkChatMessage uuid (username se) text now)) r.1)
    ∧ sessions (step (Close 0) s).1 = delete "s1" (sessions s)
    ∧ (step (Close 0) s).2
      = broadcast (Presence "leave" (username se)) (step (Close 0) s).1.
Proof.
  intros s.
  eapply (bound_session_present s _ 0%nat "s1").
  - apply after_reachable.
  - apply (bool_decide_unpack _). vm_compute. reflexivity.
  - vm_compute. reflexivity.
Defined.

(** ** Rate-limit entries and sessions *)

Lemma rateLimitMap_close ws s :
  rateLimitMap (step (Close ws) s).1 = rateLimitMap s.
Proof.
  simpl. rewrite on_close_state. by destruct (sid_truthy _).
Qed.

(** C7, as stated, fails: after a connection has joined, sent one message and
    closed, its session is gone from the registry while its rate-limit entry
    is still in the map. *)
Lemma rate_limit_entry_outlives_session :
  ¬ (∀ s log sid, reachable s log →
       is_Some (rateLimitMap s !! sid) → is_Some (sessions s !! sid)).
Proof.
  intros H.
  pose (r := after [Connection 0; Incoming 0 7 "s1" (join_frame "alice");
                    Incoming 0 8 "m1" (message_frame "hi"); Close 0]).
  specialize (H r.1 r.2 "s1" (after_reachable _)).
  assert (Hrl : rateLimitMap r.1 !! "s1" = Some (mkRateLimit 1 8))
    by (vm_compute; reflexivity).
  assert (Hse : sessions r.1 !! "s1" = None) by (vm_compute; reflexivity).
  rewrite Hrl, Hse in H. destruct H as [? H]; [by eexists | discriminate].
Qed.

(** C7, amended: in every reachable state a session id with a rate-limit
    entry is the id some accepted connection holds (it was issued at that
    connection's join), and as long as that connection is registered the id
    names a session of the registry.  Closing a connection removes its
    session and leaves the rate-limit map as it is. *)
Theorem rate_limit_entry_issued (s : Server) (log : list Send) (sid : string)
    (rl : RateLimit) :
  reachable s log →
  rateLimitMap s !! sid = Some rl →
  (∃ ws, bound s ws = Some sid
         ∧ (ws ∈ clients s → is_Some (sessions s !! sid))
         ∧ sessions (step (Close ws) s).1 !! sid = None)
  ∧ (∀ c, rateLimitMap (step (Close c) s).1 = rateLimitMap s).
Proof.
  intros Hr Hrl. pose proof (reachable_consistent _ _ Hr) as Hs.
  split; [| intros c; apply rateLimitMap_close].
  destruct (limits_issued _ Hs _ _ Hrl) as (_ & ws & Hb).
  exists ws. split; [done |]. split.
  - intros Hws. destruct (bound_session _ Hs _ _ Hws Hb) as (se & -> & _). by eexists.
  - simpl. rewrite on_close_state.
    change (bound (set_clients _ ?x) ws) with (bound x ws).
    rewrite bound_set_ready, Hb. simpl.
    destruct (String.eqb_spec sid "") as [-> | _].
    + by apply (ids_nonempty _ Hs) in Hb.
    + simpl. apply lookup_delete_eq.
Qed.

Lemma rate_limit_entry_issued_witness :
  let r := after [Connection 0; Incoming 0 7 "s1" (join_frame "alice");
                  Incoming 0 8 "m1" (message_frame "hi")] in
  (∃ ws, bound r.1 ws = Some "s1"
         ∧ (ws ∈ clients r.1 → is_Some (sessions r.1 !! "s1"))
         ∧ sessions (step (Close ws) r.1).1 !! "s1" = None)
  ∧ (∀ c, rateLimitMap (step (Close c) r.1).1 = rateLimitMap r.1).
Proof.
  intros r.
  apply (rate_limit_entry_issued r.1 r.2 "s1" (mkRateLimit 1 8)).
  - apply after_reachable.
  - vm_compute. reflexivity.
Defined.

(** ** The recorded count *)

(** C4, as stated, fails: eleven message events at one instant leave the
    count at eleven while the clock is still inside the window. *)
Lemma count_exceeds_maximum :
  ¬ (∀ s log sid rl now, reachable s log →
       rateLimitMap s !! sid = Some rl →
       last rl <= now < last rl + RATE_LIMIT_WINDOW →
       count rl <= RATE_LIMIT_MAX).
Proof.
  intros H.
  specialize (H (after burst_of_eleven).1 (after burst_of_eleven).2 "s1"
                (mkRateLimit 11 100) 100 (after_reachable _)).
  assert (Hrl : rateLimitMap (after burst_of_eleven).1 !! "s1"
                = Some (mkRateLimit 11 100)) by (vm_compute; reflexivity).
  specialize (H Hrl). simpl in H. unfold RATE_LIMIT_WINDOW, RATE_LIMIT_MAX in H. lia.
Qed.

(** C4, amended: after every step from a reachable state each recorded count
    is at least 1 (it counts rejected message events too, so it is not
    bounded by the maximum); and a step that changes the history is either
    the store evicting its oldest entries, or a message event that accepts a
    message, whose sender's count after the step is at most the maximum, with
    the clock at most one window length past the window start. *)
Theorem count_bounded_on_accept (s : Server) (log : list Send) (e : Event)
    (s' : Server) (out : list Send) :
  reachable s log →
  enabled e s →
  step e s = (s', out) →
  (∀ sid rl, rateLimitMap s' !! sid = Some rl → 1 <= count rl)
  ∧ (messages s' ≠ messages s →
     (∃ n, e = Trim n ∧ messages s' = drop n (messages s))
     ∨ ∃ ws now uuid data sid rl,
         e = Incoming ws now uuid data ∧ event_of_type data "message"
         ∧ bound s ws = Some sid
         ∧ rateLimitMap s' !! sid = Some rl
         ∧ count rl <= RATE_LIMIT_MAX
         ∧ now - last rl <= RATE_LIMIT_WINDOW).
Proof.
  intros Hr Hen Hstep.
  pose proof (reachable_consistent _ _ (reachable_step _ _ _ _ _ Hr Hen Hstep)) as Hs'.
  split; [intros sid rl Hrl; by apply (limits_issued _ Hs') in Hrl as [? _] |].
  intros Hchanged.
  destruct e as [c | c now uuid data | c | c | n]; simpl in Hstep.
  5:{ injection Hstep as <- <-. left. by exists n. }
  - injection Hstep as <- <-. done.
  - pose proof (on_message_cases c now uuid data s) as Hcases.
    rewrite Hstep in Hcases. simpl in Hcases.
    destruct Hcases as [| ? ? _ _ _ -> | ? ? _ _ _ _ _ | ? ? _ _ _ _ _
                       | sid rl text user s2 Hev Hb _ Hrl Hcount _ _ ->]; try done.
    right. exists c, now, uuid, data, sid, rl.
    split; [done |]. split; [done |]. split; [done |].
    split; [simpl; apply lookup_insert_eq |]. split; [done |].
    subst rl. apply rate_limit_update_window.
  - injection Hstep as <- <-. done.
  - exfalso. apply Hchanged.
    replace s' with (step (Close c) s).1 by (simpl; by rewrite Hstep).
    simpl. rewrite on_close_state. by destruct (sid_truthy _).
Qed.

Lemma count_bounded_on_accept_witness :
  let s := (after [Connection 0; Incoming 0 7 "s1" (join_frame "alice")]).1 in
  let e := Incoming 0 8 "m1" (message_frame "hi") in
  (∀ sid rl, rateLimitMap (step e s).1 !! sid = Some rl → 1 <= count rl)
  ∧ (messages (step e s).1 ≠ messages s →
     (∃ n, e = Trim n ∧ messages (step e s).1 = drop n (messages s))
     ∨ ∃ ws now uuid data sid rl,
         e = Incoming ws now uuid data ∧ event_of_type data "message"
         ∧ bound s ws = Some sid
         ∧ rateLimitMap (step e s).1 !! sid = Some rl
         ∧ count rl <= RATE_LIMIT_MAX
         ∧ now - last rl <= RATE_LIMIT_WINDOW).
Proof.
  intros s e.
  eapply (count_bounded_on_accept s _ e (step e s).1 (step e s).2).
  - apply after_reachable.
  - apply (bool_decide_unpack _). vm_compute. reflexivity.
  - apply surjective_pairing.
Defined.

(** ** The rate-limit check *)

Lemma broadcast_not_error data s c e :
  (∀ e', data ≠ ErrorFrame e') → broadcast data s ≠ [(c, ErrorFrame e)].
Proof.
  intros Hd Heq.
  assert (Hin : (c, ErrorFrame e) ∈ broadcast data s) by (rewrite Heq; set_solver).
  apply broadcast_elem in Hin as [Hf _]. by eapply Hd.
Qed.

(** The message branch for a bound sender: the entry written back, and the
    frame sent when the content check fails. *)
Lemma on_message_limiter ws now uuid msg sid s :
  frame_of_type msg "message" → bound s ws = Some sid → sid ≠ "" →
  let r := on_message ws now uuid (Normal msg) s in
  let rl := rate_limit_update now (rateLimitMap s !! sid) in
  rateLimitMap r.1 = <[sid := rl]> (rateLimitMap s)
  ∧ sessions r.1 = sessions s ∧ clients r.1 = clients s ∧ conns r.1 = conns s
  ∧ (r.2 = [(ws, ErrorFrame "Rate limit exceeded")] ↔ count rl > RATE_LIMIT_MAX)
  ∧ (content_rejected msg →
     messages r.1 = messages s
     ∧ r.2 = [(ws, ErrorFrame (if decide (count rl > RATE_LIMIT_MAX)
                               then "Rate limit exceeded" else "Empty message"))]).
Proof.
  intros Hty Hb Hsid r rl. unfold r.
  rewrite (on_message_message ws now uuid msg sid s Hty Hb Hsid). cbv zeta.
  fold rl. destruct (decide (count rl > RATE_LIMIT_MAX)) as [Hover | Hok].
  { repeat split; done. }
  destruct (member msg "content") as [[[| b | k | t | l | l]|]|] eqn:Hc;
    try (repeat split; first [done | intros [=] | intros; lia]).
  destruct (decide (t = "")) as [-> | Ht].
  { repeat split; first [done | intros [=] | intros; lia]. }
  repeat split; try done;
    first [ intros Heq; by apply broadcast_not_error in Heq
          | match goal with Hrej : content_rejected _ |- _ => by apply Hrej in Hc end
          | intros; lia ].
Qed.

(** C5, as stated, fails: a check arriving exactly [RATE_LIMIT_WINDOW] after
    the window start does not start a fresh window.  After ten messages at
    clock 100 the eleventh, at clock 5100, is counted in the old window and
    rejected, where the check worded by the specification resets and allows. *)
Lemma window_boundary_not_reset :
  ¬ (∀ s log ws sid now uuid msg,
       reachable s log → bound s ws = Some sid → frame_of_type msg "message" →
       let r := on_message ws now uuid (Normal msg) s in
       let spec := admit_spec now (rateLimitMap s !! sid) in
       rateLimitMap r.1 !! sid = Some spec.1
       ∧ (r.2 = [(ws, ErrorFrame "Rate limit exceeded")] ↔ spec.2 = false)).
Proof.
  intros H.
  pose (r := after (take 12 burst_of_eleven)).
  specialize (H r.1 r.2 0%nat "s1" 5100 "m11"
                (JObj [("type", JStr "message"); ("content", JStr "x")])
                (after_reachable _)).
  destruct H as [H _]; [vm_compute; reflexivity | reflexivity |].
  vm_compute in H. discriminate.
Qed.

(** C5, amended: the check resets the state to [windowStart = now],
    [count = 0] when no state exists for the session or when
    [now - windowStart > windowDurationMs] (strictly), then increments the
    count, and allows the message exactly when the resulting count is at most
    [maxPerWindow].  It agrees with the specification's wording except when
    [now - windowStart = windowDurationMs], where the old window goes on. *)
Theorem rate_limit_check (s : Server) (ws : nat) (sid : string) (now : Z)
    (uuid : string) (msg : json) :
  bound s ws = Some sid →
  sid ≠ "" →
  frame_of_type msg "message" →
  let r := on_message ws now uuid (Normal msg) s in
  let entry := rateLimitMap s !! sid in
  ∃ rl', rateLimitMap r.1 !! sid = Some rl'
    ∧ (entry = None → rl' = mkRateLimit 1 now)
    ∧ (∀ rl, entry = Some rl → now - last rl > RATE_LIMIT_WINDOW →
         rl' = mkRateLimit 1 now)
    ∧ (∀ rl, entry = Some rl → now - last rl <= RATE_LIMIT_WINDOW →
         rl' = mkRateLimit (count rl + 1) (last rl))
    ∧ (r.2 = [(ws, ErrorFrame "Rate limit exceeded")] ↔ ¬ count rl' <= RATE_LIMIT_MAX)
    ∧ ((∀ rl, entry = Some rl → now - last rl ≠ RATE_LIMIT_WINDOW) →
         rl' = (admit_spec now entry).1
         ∧ (r.2 = [(ws, ErrorFrame "Rate limit exceeded")]
            ↔ (admit_spec now entry).2 = false)).
Proof.
  intros Hb Hsid Hty r entry.
  destruct (on_message_limiter ws now uuid msg sid s Hty Hb Hsid)
    as (Hmap & _ & _ & _ & Hout & _).
  fold r in Hmap, Hout. fold entry in Hmap, Hout.
  exists (rate_limit_update now entry).
  split; [by rewrite Hmap, lookup_insert_eq |].
  split; [intros ->; apply rate_limit_update_new |].
  split; [intros rl ->; apply rate_limit_update_reset |].
  split; [intros rl ->; apply rate_limit_update_keep |].
  split; [rewrite Hout; lia |].
  intros Hoff. rewrite Hout. unfold admit_spec.
  destruct entry as [rl|].
  - specialize (Hoff rl eq_refl).
    destruct (decide (now - last rl >= RATE_LIMIT_WINDOW)) as [Hge | Hlt].
    + rewrite rate_limit_update_reset by lia. cbn [fst snd count last].
      rewrite bool_decide_eq_false. split; [done | lia].
    + rewrite rate_limit_update_keep by lia. cbn [fst snd count last].
      rewrite bool_decide_eq_false. split; [done | lia].
  - rewrite rate_limit_update_new. cbn [fst snd count last].
    rewrite bool_decide_eq_false. split; [done | lia].
Qed.

Lemma rate_limit_check_witness :
  let s := (after (take 12 burst_of_eleven)).1 in
  let r := on_message 0 5101 "m11" (message_frame "x") s in
  let entry := rateLimitMap s !! "s1" in
  ∃ rl', rateLimitMap r.1 !! "s1" = Some rl'
    ∧ (entry = None → rl' = mkRateLimit 1 5101)
    ∧ (∀ rl, entry = Some rl → 5101 - last rl > RATE_LIMIT_WINDOW →
         rl' = mkRateLimit 1 5101)
    ∧ (∀ rl, entry = Some rl → 5101 - last rl <= RATE_LIMIT_WINDOW →
         rl' = mkRateLimit (count rl + 1) (last rl))
    ∧ (r.2 = [(0%nat, ErrorFrame "Rate limit exceeded")] ↔ ¬ count rl' <= RATE_LIMIT_MAX)
    ∧ ((∀ rl, entry = Some rl → 5101 - last rl ≠ RATE_LIMIT_WINDOW) →
         rl' = (admit_spec 5101 entry).1
         ∧ (r.2 = [(0%nat, ErrorFrame "Rate limit exceeded")]
            ↔ (admit_spec 5101 entry).2 = false)).
Proof.
  intros s.
  apply (rate_limit_check s 0%nat "s1" 5101 "m11").
  - vm_compute. reflexivity.
  - discriminate.
  - reflexivity.
Defined.

(** ** Empty messages *)

(** C3, as stated, fails: the rate limiter runs before the content check, so
    a message event without content from a joined connection is counted in
    the sender's rate-limit entry. *)
Lemma empty_message_is_counted :
  ¬ (∀ s log ws sid now uuid msg,
       reachable s log → ws ∈ clients s → bound s ws = Some sid →
       frame_of_type msg "message" → content_rejected msg →
       on_message ws now uuid (Normal msg) s
       = (s, [(ws, ErrorFrame "Empty message")])).
Proof.
  intros H.
  pose (r := after [Connection 0; Incoming 0 7 "s1" (join_frame "alice")]).
  specialize (H r.1 r.2 0%nat "s1" 8 "m1" (JObj [("type", JStr "message")])
                (after_reachable _)).
  assert (Hrl : rateLimitMap r.1 !! "s1" = None) by (vm_compute; reflexivity).
  assert (Hrl' : rateLimitMap
                   (on_message 0 8 "m1" (Normal (JObj [("type", JStr "message")])) r.1).1
                 !! "s1" = Some (mkRateLimit 1 8)) by (vm_compute; reflexivity).
  rewrite H in Hrl'.
  - simpl in Hrl'. rewrite Hrl in Hrl'. discriminate.
  - apply (bool_decide_unpack _). vm_compute. reflexivity.
  - vm_compute. reflexivity.
  - reflexivity.
  - intros text. vm_compute. discriminate.
Qed.

(** C3, amended: a message event from a joined connection whose content is
    missing, not a string or empty is first counted by the rate limiter (the
    sender's entry is reset or incremented as for any message event), and
    then answered with exactly one error frame on that connection: "Empty
    message" when the limiter admits the event, "Rate limit exceeded" when it
    does not.  The session registry, the message history, the registered
    connections and the rate-limit entries of the other sessions are exactly
    as before. *)
Theorem empty_message_rejected (s : Server) (log : list Send) (ws : nat)
    (sid : string) (now : Z) (uuid : string) (msg : json) :
  reachable s log →
  bound s ws = Some sid →
  frame_of_type msg "message" →
  content_rejected msg →
  let r := on_message ws now uuid (Normal msg) s in
  let rl := rate_limit_update now (rateLimitMap s !! sid) in
  r.2 = [(ws, ErrorFrame (if decide (count rl <= RATE_LIMIT_MAX)
                          then "Empty message" else "Rate limit exceeded"))]
  ∧ sessions r.1 = sessions s
  ∧ messages r.1 = messages s
  ∧ clients r.1 = clients s
  ∧ conns r.1 = conns s
  ∧ rateLimitMap r.1 !! sid = Some rl
  ∧ (∀ other, other ≠ sid → rateLimitMap r.1 !! other = rateLimitMap s !! other).
Proof.
  intros Hr Hb Hty Hrej r rl.
  pose proof (ids_nonempty _ (reachable_consistent _ _ Hr) _ _ Hb) as Hsid.
  destruct (on_message_limiter ws now uuid msg sid s Hty Hb Hsid)
    as (Hmap & Hse & Hcl & Hco & _ & Hempty).
  destruct (Hempty Hrej) as [Hmsgs Hout].
  fold r in Hmap, Hse, Hcl, Hco, Hmsgs, Hout. fold rl in Hmap, Hout.
  split.
  { rewrite Hout. repeat case_decide; first [done | lia]. }
  repeat split; try done.
  - by rewrite Hmap, lookup_insert_eq.
  - intros other Hne. by rewrite Hmap, lookup_insert_ne.
Qed.

Lemma empty_message_rejected_witness :
  let s := (after [Connection 0; Incoming 0 7 "s1" (join_frame "alice")]).1 in
  let r := on_message 0 8 "m1" (message_frame "") s in
  let rl := rate_limit_update 8 (rateLimitMap s !! "s1") in
  r.2 = [(0%nat, ErrorFrame (if decide (count rl <= RATE_LIMIT_MAX)
                             then "Empty message" else "Rate limit exceeded"))]
  ∧ sessions r.1 = sessions s
  ∧ messages r.1 = messages s
  ∧ clients r.1 = clients s
  ∧ conns r.1 = conns s
  ∧ rateLimitMap r.1 !! "s1" = Some rl
  ∧ (∀ other, other ≠ "s1" → rateLimitMap r.1 !! other = rateLimitMap s !! other).
Proof.
  intros s.
  eapply (empty_message_rejected s _ 0%nat "s1" 8 "m1").
  - apply after_reachable.
  - vm_compute. reflexivity.
  - reflexivity.
  - intros text. vm_compute. intros [= <-]. reflexivity.
Defined.

(** ** The rate window of a session *)

Lemma is_message_event_spec ws c now uuid data :
  is_message_event ws (Incoming c now uuid data) = true
  ↔ c = ws ∧ event_of_type data "message".
Proof.
  unfold event_of_type, frame_of_type. simpl. split.
  - destruct data as [msg|]; [| discriminate].
    intros [Hc Hty]%andb_prop. apply bool_decide_eq_true in Hc.
    split; [done |]. exists msg. split; [done |].
    destruct (member msg "type") as [type|]; [| discriminate].
    by apply strict_eq_true in Hty as ->.
  - intros (-> & msg & -> & ->). by rewrite bool_decide_true.
Qed.

Lemma message_events_cons ws e es :
  message_events ws (e :: es)
  = ((if is_message_event ws e then 1 else 0) + message_events ws es)%nat.
Proof.
  unfold message_events. rewrite filter_cons.
  destruct (is_message_event ws e); by case_decide.
Qed.

Lemma bound_known s ws sid : bound s ws = Some sid → is_Some (conns s !! ws).
Proof. unfold bound. destruct (conns s !! ws); [by eexists | discriminate]. Qed.

(** One step of any connection, seen from the rate-limit entry of [ws]: the
    entry counts the message events of [ws] and nothing else. *)
Lemma step_entry ws sid n t0 e s :
  consistent s → enabled e s →
  bound s ws = Some sid →
  rateLimitMap s !! sid = Some (mkRateLimit n t0) →
  in_window ws t0 e →
  bound (step e s).1 ws = Some sid
  ∧ rateLimitMap (step e s).1 !! sid
    = Some (mkRateLimit (n + (if is_message_event ws e then 1 else 0)) t0).
Proof.
  intros Hs Hen Hb Hrl Hwin.
  pose proof (ids_nonempty _ Hs _ _ Hb) as Hsid.
  destruct e as [c | c now uuid data | c | c | k].
  5:{ simpl. rewrite Z.add_0_r. by split. }
  - simpl. rewrite Z.add_0_r. split; [| done].
    change (bound (set_clients _ ?x) ws) with (bound x ws).
    rewrite bound_connect. case_decide; [| done]. subst.
    simpl in Hen. apply bound_known in Hb as [? ?]. congruence.
  - destruct (is_message_event ws (Incoming c now uuid data)) eqn:Hev.
    + specialize (Hwin Hev). cbv beta in Hwin.
      apply is_message_event_spec in Hev as (-> & msg & -> & Hty).
      destruct (on_message_limiter ws now uuid msg sid s Hty Hb Hsid)
        as (Hmap & _ & _ & Hco & _).
      simpl. split.
      * unfold bound. by rewrite Hco.
      * rewrite Hmap, lookup_insert_eq, Hrl. by rewrite rate_limit_update_keep.
    + rewrite Z.add_0_r. simpl.
      assert (Hnot : ¬ (c = ws ∧ event_of_type data "message")).
      { rewrite <- is_message_event_spec. by rewrite Hev. }
      destruct (on_message_cases c now uuid data s)
        as [| name s2 _ Hnull _ -> | sid' rl Hty Hb' _ _ _ | sid' rl Hty Hb' _ _ _
           | sid' rl text user s2 Hty Hb' _ _ _ _ _ ->]; try done.
      * split; [| done].
        change (bound (createSession _ _ _ ?x) ws) with (bound x ws).
        rewrite bound_assign. case_decide; [| done]. subst.
        by apply (bound_falsy _ _ sid Hs) in Hnull.
      * split; [done |]. simpl. rewrite lookup_insert_ne; [done |].
        intros ->. apply Hnot. split; [| done]. by eapply ids_distinct.
      * split; [done |]. simpl. rewrite lookup_insert_ne; [done |].
        intros ->. apply Hnot. split; [| done]. by eapply ids_distinct.
      * split; [done |]. simpl. rewrite lookup_insert_ne; [done |].
        intros ->. apply Hnot. split; [| done]. by eapply ids_distinct.
  - simpl. rewrite Z.add_0_r. split; [| done]. by rewrite bound_set_ready.
  - rewrite rateLimitMap_close, Z.add_0_r. split; [| done].
    simpl. rewrite bound_on_close.
    change (bound (set_clients _ ?x) ws) with (bound x ws).
    by rewrite bound_set_ready.
Qed.

Lemma exec_entry ws sid t0 es : ∀ n s log s1 log1,
  consistent s →
  bound s ws = Some sid →
  rateLimitMap s !! sid = Some (mkRateLimit n t0) →
  Forall (in_window ws t0) es →
  exec es s log = Some (s1, log1) →
  bound s1 ws = Some sid
  ∧ rateLimitMap s1 !! sid = Some (mkRateLimit (n + Z.of_nat (message_events ws es)) t0).
Proof.
  induction es as [| e es IH]; intros n s log s1 log1 Hs Hb Hrl Hwin Hexec.
  - injection Hexec as <- <-. unfold message_events. simpl.
    by rewrite Z.add_0_r.
  - simpl in Hexec. case_decide as Hen; [| discriminate].
    apply Forall_cons in Hwin as [Hwe Hwin].
    destruct (step_entry ws sid n t0 e s Hs Hen Hb Hrl Hwe) as [Hb' Hrl'].
    pose proof (consistent_step e s Hs Hen) as Hs'.
    destruct (step e s) as [s' out]. simpl in *.
    destruct (IH _ _ _ _ _ Hs' Hb' Hrl' Hwin Hexec) as [Hb1 Hrl1].
    split; [done |]. rewrite Hrl1, message_events_cons.
    do 2 f_equal. destruct (is_message_event ws e); lia.
Qed.

(** C1, as stated, fails at the end of the window.  The window of the
    specification is [windowStart, windowStart + windowDurationMs): it has
    rolled over once [now - windowStart >= windowDurationMs].  After ten
    message events at clock 100 the next one, at clock 5100, comes when that
    window has rolled over, and is still answered "Rate limit exceeded". *)
Lemma window_end_still_rejected :
  ¬ (∀ s log ws sid rl now uuid msg,
       reachable s log → bound s ws = Some sid →
       rateLimitMap s !! sid = Some rl →
       now - last rl >= RATE_LIMIT_WINDOW →
       frame_of_type msg "message" →
       (on_message ws now uuid (Normal msg) s).2
       ≠ [(ws, ErrorFrame "Rate limit exceeded")]).
Proof.
  intros H.
  pose (r := after (take 12 burst_of_eleven)).
  apply (H r.1 r.2 0%nat "s1" (mkRateLimit 10 100) 5100 "m11"
           (JObj [("type", JStr "message"); ("content", JStr "x")])
           (after_reachable _)).
  - vm_compute. reflexivity.
  - vm_compute. reflexivity.
  - vm_compute. discriminate.
  - reflexivity.
  - vm_compute. reflexivity.
Qed.

(** C1, amended: let a message event of a joined connection at clock [t0]
    open a rate window (no entry yet, or the previous window is over), and
    let any events of any connections follow in which the message events of
    that connection come no later than [t0 + RATE_LIMIT_WINDOW].  The entry
    then counts the connection's message events of the window.  Once there
    are at least [RATE_LIMIT_MAX] of them, a further message event at a clock
    [now] with [now - t0 <= RATE_LIMIT_WINDOW] (the end point included) is
    answered with the single frame "Rate limit exceeded" on the sender's
    connection and changes nothing but the count (no history append, no
    broadcast); a message event with [now - t0 > RATE_LIMIT_WINDOW] starts a
    new window and is admitted again. *)
Theorem rate_limit_enforced (s0 : Server) (log0 : list Send) (ws : nat)
    (sid : string) (t0 : Z) (u0 : string) (m0 : json) (es : list Event)
    (s1 : Server) (log1 : list Send) (now : Z) (uuid : string) (msg : json) :
  reachable s0 log0 →
  bound s0 ws = Some sid →
  frame_of_type m0 "message" →
  (∀ rl, rateLimitMap s0 !! sid = Some rl → t0 - last rl > RATE_LIMIT_WINDOW) →
  exec (Incoming ws t0 u0 (Normal m0) :: es) s0 log0 = Some (s1, log1) →
  Forall (in_window ws t0) es →
  RATE_LIMIT_MAX <= Z.of_nat (message_events ws (Incoming ws t0 u0 (Normal m0) :: es)) →
  frame_of_type msg "message" →
  let k := Z.of_nat (message_events ws (Incoming ws t0 u0 (Normal m0) :: es)) in
  let r := on_message ws now uuid (Normal msg) s1 in
  rateLimitMap s1 !! sid = Some (mkRateLimit k t0)
  ∧ (now - t0 <= RATE_LIMIT_WINDOW →
       r = (set_rateLimitMap (fun m => <[sid := mkRateLimit (k + 1) t0]> m) s1,
            [(ws, ErrorFrame "Rate limit exceeded")])
       ∧ messages r.1 = messages s1)
  ∧ (now - t0 > RATE_LIMIT_WINDOW →
       rateLimitMap r.1 !! sid = Some (mkRateLimit 1 now)
       ∧ r.2 ≠ [(ws, ErrorFrame "Rate limit exceeded")]
       ∧ ∀ text, member msg "content" = Normal (Some (JStr text)) → text ≠ "" →
           ∃ m, content m = text ∧ messages r.1 = messages s1 ++ [m]
                ∧ r.2 = broadcast (Message m) r.1).
Proof.
  intros Hr Hb Hty0 Hopen Hexec Hwin Hmax Hty k r.
  pose proof (reachable_consistent _ _ Hr) as Hs0.
  pose proof (ids_nonempty _ Hs0 _ _ Hb) as Hsid.
  simpl in Hexec. case_decide as Hen; [| discriminate].
  pose proof (consistent_step (Incoming ws t0 u0 (Normal m0)) _ Hs0 Hen) as Hs.
  destruct (on_message_limiter ws t0 u0 m0 sid s0 Hty0 Hb Hsid)
    as (Hmap & _ & _ & Hco & _).
  simpl in Hs.
  destruct (on_message ws t0 u0 (Normal m0) s0) as [s out] eqn:Hfirst.
  simpl in Hmap, Hco, Hs.
  assert (Hentry : rateLimitMap s !! sid = Some (mkRateLimit 1 t0)).
  { rewrite Hmap, lookup_insert_eq. f_equal.
    destruct (rateLimitMap s0 !! sid) as [rl|] eqn:Hrl.
    - apply rate_limit_update_reset. by apply Hopen.
    - apply rate_limit_update_new. }
  assert (Hbs : bound s ws = Some sid) by (unfold bound; by rewrite Hco).
  destruct (exec_entry ws sid t0 es 1 s _ s1 log1 Hs Hbs Hentry Hwin Hexec)
    as [Hb1 Hrl1].
  assert (Hk : k = 1 + Z.of_nat (message_events ws es)).
  { unfold k. rewrite message_events_cons.
    assert (is_message_event ws (Incoming ws t0 u0 (Normal m0)) = true) as ->.
    { apply is_message_event_spec. split; [done |]. by eexists. }
    lia. }
  rewrite <- Hk in Hrl1. fold k in Hmax.
  split; [done |].
  pose proof (on_message_message ws now uuid msg sid s1 Hty Hb1 Hsid) as Hmsg.
  fold r in Hmsg. rewrite Hrl1 in Hmsg. cbv zeta in Hmsg.
  split.
  - intros Hin. rewrite rate_limit_update_keep in Hmsg by done.
    simpl in Hmsg. rewrite decide_True in Hmsg by lia. by rewrite Hmsg.
  - intros Hout. rewrite rate_limit_update_reset in Hmsg by done.
    simpl in Hmsg.
    destruct (member msg "content") as [[[| b | j | t | l | l]|]|] eqn:Hc;
      try (rewrite Hmsg; simpl; rewrite lookup_insert_eq;
           split; [done |]; split; [discriminate | intros ? [=]]).
    destruct (decide (t = "")) as [-> | Ht]; rewrite Hmsg; simpl;
      rewrite lookup_insert_eq; (split; [done |]).
    + split; [discriminate |]. intros ? [= <-] Hne. by destruct Hne.
    + split; [by apply broadcast_not_error |].
      intros text [= <-] _.
      eexists (mkChatMessage _ _ _ _). split; [reflexivity |]. split; reflexivity.
Qed.

Lemma rate_limit_enforced_witness :
  let r0 := after (take 2 burst_of_eleven) in
  let e0 := Incoming 0 100 "m01" (message_frame "x") in
  let es := drop 3 (take 12 burst_of_eleven) in
  let r1 := after (take 12 burst_of_eleven) in
  let k := Z.of_nat (message_events 0 (e0 :: es)) in
  let r := on_message 0 5100 "m11" (message_frame "x") r1.1 in
  rateLimitMap r1.1 !! "s1" = Some (mkRateLimit k 100)
  ∧ (5100 - 100 <= RATE_LIMIT_WINDOW →
       r = (set_rateLimitMap (fun m => <["s1" := mkRateLimit (k + 1) 100]> m) r1.1,
            [(0%nat, ErrorFrame "Rate limit exceeded")])
       ∧ messages r.1 = messages r1.1)
  ∧ (5100 - 100 > RATE_LIMIT_WINDOW →
       rateLimitMap r.1 !! "s1" = Some (mkRateLimit 1 5100)
       ∧ r.2 ≠ [(0%nat, ErrorFrame "Rate limit exceeded")]
       ∧ ∀ text, member (JObj [("type", JStr "message"); ("content", JStr "x")])
                   "content" = Normal (Some (JStr text)) → text ≠ "" →
           ∃ m, content m = text ∧ messages r.1 = messages r1.1 ++ [m]
                ∧ r.2 = broadcast (Message m) r.1).
Proof.
  intros r0 e0 es r1.
  apply (rate_limit_enforced r0.1 r0.2 0%nat "s1" 100 "m01" _ es r1.1 r1.2 5100 "m11").
  - apply after_reachable.
  - vm_compute. reflexivity.
  - reflexivity.
  - intros rl. vm_compute. discriminate.
  - vm_compute. reflexivity.
  - unfold es. simpl.
    repeat (apply Forall_cons; split; [intros _; vm_compute; discriminate |]).
    apply Forall_nil. done.
  - vm_compute. discriminate.
  - reflexivity.
Defined.

(** * Further properties of the code *)

(** ** session.ts: the registry *)

Lemma registry_get_set k v m :
  Registry.map_get k (Registry.map_set k v m) = Some v.
Proof.
  induction m as [| [k' v'] m IH]; simpl.
  - by rewrite decide_True.
  - destruct (decide (k' = k)) as [-> | Hne]; simpl.
    + by rewrite decide_True.
    + by rewrite decide_False.
Qed.

Lemma registry_get_set_ne k k' v m :
  k' ≠ k → Registry.map_get k' (Registry.map_set k v m) = Registry.map_get k' m.
Proof.
  intros Hne. induction m as [| [k0 v0] m IH]; simpl.
  - by rewrite decide_False.
  - destruct (decide (k0 = k)) as [-> | Hk]; simpl.
    + by rewrite !decide_False.
    + by rewrite IH.
Qed.

Lemma registry_get_None k m :
  Registry.map_get k m = None ↔ k ∉ m.*1.
Proof.
  induction m as [| [k' v'] m IH]; simpl.
  - split; [intros _; apply not_elem_of_nil | done].
  - destruct (decide (k' = k)) as [-> | Hne].
    + split; [discriminate | intros H; exfalso; apply H; left].
    + rewrite IH, not_elem_of_cons.
      split; [intros H; split; [intros Heq; by apply Hne | done] | by intros [_ H]].
Qed.

Lemma registry_get_delete k k' m :
  Registry.map_get k' (Registry.map_delete k m)
  = if decide (k' = k) then None else Registry.map_get k' m.
Proof.
  unfold Registry.map_delete.
  induction m as [| [k0 v0] m IH]; [simpl; by case_decide |].
  destruct (decide (k0 = k)) as [-> | Hk].
  - rewrite filter_cons_False by (simpl; intros H; by apply H).
    rewrite IH. destruct (decide (k' = k)) as [-> | Hne]; [done |].
    simpl. by rewrite decide_False.
  - rewrite filter_cons_True by done. simpl. rewrite IH.
    destruct (decide (k0 = k')) as [<- | Hne]; [by rewrite decide_False |].
    done.
Qed.

Lemma registry_delete_absent k m :
  k ∉ m.*1 → Registry.map_delete k m = m.
Proof.
  unfold Registry.map_delete.
  induction m as [| [k0 v0] m IH]; [done |].
  rewrite fmap_cons, not_elem_of_cons. intros [Hne Hm].
  rewrite filter_cons_True by (simpl; intros Heq; by apply Hne). f_equal. by apply IH.
Qed.

(** X1: what [createSession] returns is the record built from its arguments,
    [getSession] with the same id then returns that record (also when the id
    was taken: the old session is replaced), and every other id reads as
    before. *)
Theorem registry_create_get (sid name : string) (now : Z) (m : Registry.t) :
  (Registry.createSession sid name now m).1 = mkSession sid name now
  ∧ Registry.getSession sid (Registry.createSession sid name now m).2
    = Some (Registry.createSession sid name now m).1
  ∧ ∀ other, other ≠ sid →
      Registry.getSession other (Registry.createSession sid name now m).2
      = Registry.getSession other m.
Proof.
  split; [done |]. split.
  - apply registry_get_set.
  - intros other Hne. by apply registry_get_set_ne.
Qed.

(** X2: after [removeSession] the id reads as undefined and every other id
    reads as before; removing an id that is not registered leaves the
    registry as it is, so removing twice is removing once. *)
Theorem registry_remove (sid : string) (m : Registry.t) :
  Registry.getSession sid (Registry.removeSession sid m) = None
  ∧ (∀ other, other ≠ sid →
       Registry.getSession other (Registry.removeSession sid m)
       = Registry.getSession other m)
  ∧ (Registry.getSession sid m = None → Registry.removeSession sid m = m)
  ∧ Registry.removeSession sid (Registry.removeSession sid m)
    = Registry.removeSession sid m.
Proof.
  unfold Registry.getSession, Registry.removeSession.
  split; [by rewrite registry_get_delete, decide_True |].
  split; [intros other Hne; by rewrite registry_get_delete, decide_False |].
  split.
  - intros Hnone. by apply registry_delete_absent, registry_get_None.
  - apply registry_delete_absent, registry_get_None.
    by rewrite registry_get_delete, decide_True.
Qed.

Lemma registry_set_absent k v m :
  k ∉ m.*1 → Registry.map_set k v m = m ++ [(k, v)].
Proof.
  induction m as [| [k0 v0] m IH]; [done |].
  rewrite fmap_cons, not_elem_of_cons. intros [Hne Hm]. simpl.
  rewrite decide_False by (intros Heq; by apply Hne). by rewrite IH.
Qed.

Lemma registry_set_present k v old m :
  Registry.map_get k m = Some old →
  ∃ pre post, m = pre ++ (k, old) :: post
    ∧ Registry.map_set k v m = pre ++ (k, v) :: post
    ∧ k ∉ pre.*1.
Proof.
  induction m as [| [k0 v0] m IH]; [discriminate |]. simpl.
  destruct (decide (k0 = k)) as [-> | Hne].
  - intros [= ->]. exists [], m. split; [done |]. split; [done |]. apply not_elem_of_nil.
  - intros Hget. destruct (IH Hget) as (pre & post & -> & -> & Hpre).
    exists ((k0, v0) :: pre), post. split; [done |]. split; [done |].
    rewrite fmap_cons, not_elem_of_cons. split; [intros Heq; by apply Hne | done].
Qed.

Lemma registry_set_keys k v m :
  k ∈ m.*1 → (Registry.map_set k v m).*1 = m.*1.
Proof.
  induction m as [| [k0 v0] m IH]; [intros H; by apply elem_of_nil in H |].
  cbn [Registry.map_set]. destruct (decide (k0 = k)) as [-> | Hne]; [done |].
  rewrite !fmap_cons, elem_of_cons. intros [Heq | Hin]; [by destruct Hne |].
  f_equal. by apply IH.
Qed.

(** X3: [listSessions] lists the sessions in the order of their first
    registration.  Creating a session under a new id puts it last; creating
    one under a registered id replaces that session where it stands and
    moves nothing; in both cases the list is not empty afterwards. *)
Theorem registry_create_order (sid name : string) (now : Z) (m : Registry.t) :
  let session := mkSession sid name now in
  let m' := (Registry.createSession sid name now m).2 in
  (Registry.getSession sid m = None →
     Registry.listSessions m' = Registry.listSessions m ++ [session])
  ∧ (∀ old, Registry.getSession sid m = Some old →
       ∃ pre post, m = pre ++ (sid, old) :: post
         ∧ m' = pre ++ (sid, session) :: post
         ∧ sid ∉ pre.*1)
  ∧ (0 < length (Registry.listSessions m'))%nat.
Proof.
  intros session m'. unfold m', Registry.createSession, Registry.getSession,
    Registry.listSessions. simpl. fold session.
  split; [| split].
  - intros Hnone%registry_get_None.
    by rewrite registry_set_absent, fmap_app.
  - intros old Hold. by apply registry_set_present.
  - rewrite length_fmap. destruct m as [| [k0 v0] m]; simpl; [lia |].
    case_decide; simpl; lia.
Qed.

(** X4: the registry keeps one entry per id and every session under its own
    id, whatever sequence of [createSession] and [removeSession] builds it;
    removing a registered id takes out exactly its entry and leaves the
    order of the others. *)
Theorem registry_well_formed (sid name : string) (now : Z) (m : Registry.t) :
  Registry.wf m →
  Registry.keyed m →
  Registry.wf (Registry.createSession sid name now m).2
  ∧ Registry.keyed (Registry.createSession sid name now m).2
  ∧ Registry.wf (Registry.removeSession sid m)
  ∧ Registry.keyed (Registry.removeSession sid m)
  ∧ (∀ pre old post, m = pre ++ (sid, old) :: post →
       Registry.removeSession sid m = pre ++ post).
Proof.
  unfold Registry.wf, Registry.keyed, Registry.createSession, Registry.removeSession.
  intros Hwf Hkeyed. simpl.
  split; [| split; [| split; [| split]]].
  - destruct (decide (sid ∈ m.*1)) as [Hin | Hnotin].
    + by rewrite registry_set_keys.
    + rewrite registry_set_absent, fmap_app by done. simpl.
      apply NoDup_app. split; [done |]. split; [| apply NoDup_singleton].
      intros x Hx Hx'%list_elem_of_singleton. by subst.
  - destruct (Registry.map_get sid m) as [old|] eqn:Hget.
    + destruct (registry_set_present sid (mkSession sid name now) old m Hget)
        as (pre & post & -> & -> & _).
      apply Forall_app in Hkeyed as [Hpre Hpost].
      apply Forall_app. split; [done |].
      apply Forall_cons in Hpost as [_ Hpost]. by apply Forall_cons.
    + apply registry_get_None in Hget. rewrite registry_set_absent by done.
      apply Forall_app. split; [done |]. by apply Forall_singleton.
  - unfold Registry.map_delete. clear Hkeyed.
    induction m as [| [k0 v0] m IH]; [done |].
    rewrite fmap_cons in Hwf. apply NoDup_cons in Hwf as [Hk0 Hwf].
    destruct (decide (k0 = sid)) as [-> | Hne].
    + rewrite filter_cons_False by (simpl; intros H; by apply H). by apply IH.
    + rewrite filter_cons_True by done. rewrite fmap_cons. apply NoDup_cons.
      split; [| by apply IH].
      intros Hin. apply Hk0. apply list_elem_of_fmap in Hin as (e & -> & He).
      apply list_elem_of_filter in He as [_ He].
      apply list_elem_of_fmap. by exists e.
  - unfold Registry.map_delete. apply Forall_forall.
    intros e He%list_elem_of_filter. destruct He as [_ He].
    by eapply Forall_forall in Hkeyed.
  - intros pre old post ->. unfold Registry.map_delete.
    rewrite fmap_app, fmap_cons in Hwf. simpl in Hwf.
    apply NoDup_app in Hwf as (_ & Hdisj & Hpost).
    apply NoDup_cons in Hpost as [Hpost _].
    rewrite filter_app, filter_cons_False by (simpl; intros H; by apply H).
    fold (Registry.map_delete sid pre). fold (Registry.map_delete sid post).
    rewrite !registry_delete_absent; [done | done |].
    intros Hin. apply (Hdisj sid Hin). left.
Qed.

Lemma registry_well_formed_witness :
  let m := [("a", mkSession "a" "alice" 1); ("b", mkSession "b" "bob" 2)] in
  Registry.wf (Registry.createSession "c" "carol" 3 m).2
  ∧ Registry.keyed (Registry.createSession "c" "carol" 3 m).2
  ∧ Registry.wf (Registry.removeSession "c" m)
  ∧ Registry.keyed (Registry.removeSession "c" m)
  ∧ (∀ pre old post, m = pre ++ ("c", old) :: post →
       Registry.removeSession "c" m = pre ++ post).
Proof.
  intros m. apply (registry_well_formed "c" "carol" 3 m).
  - apply (bool_decide_unpack _). vm_compute. reflexivity.
  - repeat constructor.
Defined.

Lemma registry_to_gmap_get k m :
  Registry.to_gmap m !! k = Registry.map_get k m.
Proof.
  unfold Registry.to_gmap. induction m as [| [k0 v0] m IH]; [done |].
  rewrite list_to_map_cons. simpl. destruct (decide (k0 = k)) as [-> | Hne].
  - by rewrite lookup_insert_eq.
  - by rewrite lookup_insert_ne.
Qed.

Lemma registry_to_gmap_set k v m :
  Registry.to_gmap (Registry.map_set k v m) = <[k := v]> (Registry.to_gmap m).
Proof.
  unfold Registry.to_gmap. induction m as [| [k0 v0] m IH]; [done |].
  cbn [Registry.map_set]. destruct (decide (k0 = k)) as [-> | Hne].
  - by rewrite !list_to_map_cons, insert_insert_eq.
  - by rewrite !list_to_map_cons, IH, insert_insert_ne.
Qed.

Lemma registry_to_gmap_delete k m :
  Registry.to_gmap (Registry.map_delete k m) = delete k (Registry.to_gmap m).
Proof.
  unfold Registry.to_gmap, Registry.map_delete.
  induction m as [| [k0 v0] m IH]; [symmetry; apply delete_empty |].
  destruct (decide (k0 = k)) as [-> | Hne].
  - rewrite filter_cons_False by (simpl; intros H; by apply H).
    by rewrite list_to_map_cons, delete_insert_eq.
  - rewrite filter_cons_True by done.
    by rewrite !list_to_map_cons, delete_insert_ne, IH.
Qed.

(** X5: the finite map the server model keeps for the registry agrees with
    the registry in insertion order: when the two hold the same sessions,
    [getSession] reads the same, and [createSession] and [removeSession]
    lead to registries that again hold the same sessions. *)
Theorem registry_refines (s : Server) (m : Registry.t) (sid name : string)
    (now : Z) :
  sessions s = Registry.to_gmap m →
  getSession sid s = Registry.getSession sid m
  ∧ sessions (createSession sid name now s)
    = Registry.to_gmap (Registry.createSession sid name now m).2
  ∧ sessions (removeSession sid s)
    = Registry.to_gmap (Registry.removeSession sid m)
  ∧ (Registry.wf m → length (Registry.listSessions m) = size (sessions s)).
Proof.
  intros Hs. unfold getSession, Registry.getSession. simpl. rewrite Hs.
  split; [apply registry_to_gmap_get |].
  split; [by rewrite registry_to_gmap_set |].
  split; [by rewrite registry_to_gmap_delete |].
  intros Hwf. unfold Registry.listSessions, Registry.to_gmap.
  rewrite map_size_list_to_map by done. by rewrite length_fmap.
Qed.

Lemma registry_refines_witness :
  let m := [("a", mkSession "a" "alice" 1)] in
  let s := createSession "a" "alice" 1 init in
  getSession "a" s = Registry.getSession "a" m
  ∧ sessions (createSession "a" "bob" 2 s)
    = Registry.to_gmap (Registry.createSession "a" "bob" 2 m).2
  ∧ sessions (removeSession "a" s)
    = Registry.to_gmap (Registry.removeSession "a" m)
  ∧ (Registry.wf m → length (Registry.listSessions m) = size (sessions s)).
Proof.
  intros m s. apply (registry_refines s m "a" "bob" 2).
  vm_compute. reflexivity.
Defined.

(** ** wsServer.ts: frames outside the protocol *)

Lemma strict_eq_false (v : jsval) (lit : string) :
  v ≠ Some (JStr lit) → strict_eq v lit = false.
Proof.
  intros Hne. destruct (strict_eq v lit) eqn:Heq; [| done].
  by apply strict_eq_true in Heq.
Qed.

(** X6: a frame that is neither a join nor a message event is answered with
    exactly one error frame on the sender's connection and changes nothing.
    The frame says "Invalid message format" when the text does not parse or
    parses to null, "Missing or invalid type" when the type field is absent,
    not a string or empty, and "Unknown or unauthorized event" for any other
    type, whether or not the connection has joined. *)
Theorem frame_outside_protocol (ws : nat) (now : Z) (uuid : string)
    (data : completion json) (s : Server) :
  ¬ event_of_type data "join" →
  ¬ event_of_type data "message" →
  ∃ e, on_message ws now uuid data s = (s, [(ws, ErrorFrame e)])
    ∧ (data = Throw ∨ data = Normal JNull → e = "Invalid message format")
    ∧ (∀ msg v, data = Normal msg → member msg "type" = Normal v →
         (∀ t, v = Some (JStr t) → t = "") → e = "Missing or invalid type")
    ∧ (∀ msg ty, data = Normal msg → frame_of_type msg ty → ty ≠ "" →
         e = "Unknown or unauthorized event").
Proof.
  intros Hjoin Hmsg. unfold on_message.
  destruct data as [msg|]; simpl.
  2:{ eexists. split; [done |]. split; [done |]. split; intros; discriminate. }
  unfold handle.
  destruct (member msg "type") as [type|] eqn:Hty; simpl.
  2:{ eexists. split; [done |]. split; [done |].
      split; intros ? ? [= <-]; [congruence |]. unfold frame_of_type. congruence. }
  assert (Hnull : msg ≠ JNull) by (intros ->; discriminate).
  destruct (negb (truthy type) || negb (String.eqb (typeof type) "string")) eqn:Hstr;
    simpl.
  - eexists. split; [done |]. split; [intros [? | [= ?]]; congruence |].
    split; [done |]. intros ? ty [= <-] Hf Hne. exfalso.
    unfold frame_of_type in Hf. rewrite Hty in Hf. injection Hf as ->.
    assert (negb (truthy (Some (JStr ty)))
            || negb (String.eqb (typeof (Some (JStr ty))) "string") = false)
      by (apply string_test; eauto).
    congruence.
  - apply string_test in Hstr as (t & -> & Ht).
    rewrite strict_eq_false.
    2:{ intros [= ->]. apply Hjoin. by exists msg. }
    rewrite strict_eq_false.
    2:{ intros [= ->]. apply Hmsg. by exists msg. }
    simpl. eexists. split; [done |]. split; [intros [? | [= ?]]; congruence |].
    split; [| done]. intros ? v [= <-] Hv Hempty. exfalso.
    rewrite Hty in Hv. injection Hv as <-. by apply Ht, Hempty.
Qed.

Lemma frame_outside_protocol_witness :
  ∃ e, on_message 0 5 "u" (Normal (JObj [("type", JStr "ping")])) three_clients
       = (three_clients, [(0%nat, ErrorFrame e)])
    ∧ (Normal (JObj [("type", JStr "ping")]) = Throw
       ∨ Normal (JObj [("type", JStr "ping")]) = Normal JNull →
       e = "Invalid message format")
    ∧ (∀ msg v, Normal (JObj [("type", JStr "ping")]) = Normal msg →
         member msg "type" = Normal v →
         (∀ t, v = Some (JStr t) → t = "") → e = "Missing or invalid type")
    ∧ (∀ msg ty, Normal (JObj [("type", JStr "ping")]) = Normal msg →
         frame_of_type msg ty → ty ≠ "" →
         e = "Unknown or unauthorized event").
Proof.
  apply (frame_outside_protocol 0 5 "u" _ three_clients).
  - intros (msg & [= <-] & Hty). vm_compute in Hty. discriminate.
  - intros (msg & [= <-] & Hty). vm_compute in Hty. discriminate.
Defined.

(** X7: a join event on a connection without a session whose username is
    missing, not a string, or a string of fewer than two UTF-16 code units
    (what [msg.username.length] counts: a single accented letter is one) is
    answered with the single frame "Invalid username" on that connection; no
    session is created and nothing else changes. *)
Theorem invalid_username_rejected (ws : nat) (now : Z) (uuid : string)
    (msg : json) (v : jsval) (s : Server) :
  bound s ws = None →
  frame_of_type msg "join" →
  member msg "username" = Normal v →
  (∀ name, v = Some (JStr name) → (utf16_length name < 2)%nat) →
  on_message ws now uuid (Normal msg) s = (s, [(ws, ErrorFrame "Invalid username")]).
Proof.
  intros Hb Hty Hname Hshort. unfold on_message, handle. simpl.
  destruct (frame_type_test _ _ Hty) as (type & -> & Hstr & Heq); [done |].
  simpl. rewrite Hstr, Heq, Hb, Hname. simpl.
  destruct (negb (truthy v) || negb (String.eqb (typeof v) "string")) eqn:Hv;
    [done |].
  apply string_test in Hv as (name & -> & _).
  specialize (Hshort name eq_refl). unfold js_length. simpl.
  destruct (Z.ltb_spec (Z.of_nat (utf16_length name)) 2); [done | lia].
Qed.

Lemma invalid_username_rejected_witness :
  on_message 0 5 "u" (join_frame "é") three_clients
  = (three_clients, [(0%nat, ErrorFrame "Invalid username")]).
Proof.
  apply (invalid_username_rejected 0 5 "u" _ (Some (JStr "é")) three_clients).
  - vm_compute. reflexivity.
  - reflexivity.
  - reflexivity.
  - intros name [= <-]. vm_compute. lia.
Defined.

(** ** wsServer.ts: accepted messages and who is sent what *)

Lemma chat_to_app c log out :
  chat_to c (log ++ out) = chat_to c log ++ chat_to c out.
Proof. unfold chat_to. apply omap_app. Qed.

Lemma chat_to_fanout c m (l : list nat) :
  NoDup l →
  chat_to c ((fun c' => (c', Message m)) <$> l) = if decide (c ∈ l) then [m] else [].
Proof.
  induction 1 as [| x l Hx Hnd IH]; [done |].
  rewrite fmap_cons. unfold chat_to in *. cbn [omap list_omap]. simpl.
  rewrite IH. clear IH.
  destruct (decide (x = c)) as [-> | Hne];
    destruct (decide (c ∈ l)) as [Hin | Hnotin]; try contradiction.
  - rewrite decide_True; [done | left].
  - rewrite decide_True; [done | by right].
  - rewrite decide_False; [done |].
    rewrite elem_of_cons. intros [-> | ?]; contradiction.
Qed.

Lemma chat_to_broadcast c m s :
  NoDup (clients s) →
  chat_to c (broadcast (Message m) s)
  = if decide (c ∈ clients s ∧ ready s c = Some OPEN) then [m] else [].
Proof.
  intros Hnd. unfold broadcast.
  rewrite chat_to_fanout by (by apply NoDup_filter).
  destruct (decide (c ∈ filter (fun c0 => ready s c0 = Some OPEN) (clients s)))
    as [Hin | Hnotin].
  - apply list_elem_of_filter in Hin. by rewrite decide_True by tauto.
  - rewrite decide_False; [done |]. intros [? ?]. apply Hnotin.
    by apply list_elem_of_filter.
Qed.

Lemma chat_to_other c data s :
  (∀ m, data ≠ Message m) → chat_to c (broadcast data s) = [].
Proof.
  intros Hd. unfold broadcast, chat_to.
  induction (filter _ (clients s)) as [| x l IH]; [done |].
  rewrite fmap_cons. cbn [omap list_omap]. simpl. rewrite IH.
  destruct data; try done. by destruct (Hd m).
Qed.

(** X8: a message event with non-empty text from a joined connection that
    the rate limiter admits appends one chat message to the end of the
    history, with the generated id, the sender's user name, the text and the
    clock value, and leaves the session registry as it is.  Every registered
    connection whose socket is OPEN is sent that message exactly once, the
    sender included; no other connection is sent anything. *)
Theorem message_accepted (s : Server) (log : list Send) (ws : nat) (sid : string)
    (now : Z) (uuid : string) (msg : json) (text : string) :
  reachable s log →
  enabled (Incoming ws now uuid (Normal msg)) s →
  bound s ws = Some sid →
  frame_of_type msg "message" →
  member msg "content" = Normal (Some (JStr text)) →
  text ≠ "" →
  count (rate_limit_update now (rateLimitMap s !! sid)) <= RATE_LIMIT_MAX →
  ∃ se, sessions s !! sid = Some se
    ∧ let m := mkChatMessage uuid (username se) text now in
      let r := on_message ws now uuid (Normal msg) s in
      messages r.1 = messages s ++ [m]
      ∧ sessions r.1 = sessions s
      ∧ r.2 = (fun c => (c, Message m))
                <$> filter (fun c => ready s c = Some OPEN) (clients s)
      ∧ chat_to ws r.2 = [m]
      ∧ (∀ c, c ∈ clients s → ready s c = Some OPEN → chat_to c r.2 = [m])
      ∧ (∀ c f, (c, f) ∈ r.2 → c ∈ clients s ∧ ready s c = Some OPEN).
Proof.
  intros Hr (Hws & Hopen & _) Hb Hty Hcontent Htext Hcount.
  pose proof (reachable_consistent _ _ Hr) as Hs.
  destruct (bound_session _ Hs _ _ Hws Hb) as (se & Hse & _ & Hlen).
  assert (Hneq : String.eqb (username se) "" = false).
  { destruct (String.eqb_spec (username se) "") as [Heq |]; [| done].
    rewrite Heq in Hlen. vm_compute in Hlen. lia. }
  pose proof (ids_nonempty _ Hs _ _ Hb) as Hsid.
  exists se. split; [done |]. intros m r. unfold r.
  rewrite (on_message_message ws now uuid msg sid s Hty Hb Hsid). cbv zeta.
  rewrite decide_False by lia. rewrite Hcontent, decide_False by done.
  rewrite Hse, Hneq. fold m.
  set (s2 := storeMessage m _).
  assert (Hsame : broadcast (Message m) s2
                  = (fun c => (c, Message m))
                      <$> filter (fun c => ready s c = Some OPEN) (clients s)) by done.
  cbn [fst snd]. split; [done |]. split; [done |]. split; [done |].
  assert (Hchat : ∀ c, c ∈ clients s → ready s c = Some OPEN →
                       chat_to c (broadcast (Message m) s2) = [m]).
  { intros c Hc Hc'. rewrite chat_to_broadcast by apply Hs.
    by rewrite decide_True. }
  split; [by apply Hchat |]. split; [done |].
  intros c f Hin. apply broadcast_elem in Hin as (_ & ? & ?). done.
Qed.

Lemma message_accepted_witness :
  let r0 := after [Connection 0; Connection 1; Incoming 0 7 "s1" (join_frame "alice")] in
  ∃ se, sessions r0.1 !! "s1" = Some se
    ∧ let m := mkChatMessage "m1" (username se) "hi" 8 in
      let r := on_message 0 8 "m1" (message_frame "hi") r0.1 in
      messages r.1 = messages r0.1 ++ [m]
      ∧ sessions r.1 = sessions r0.1
      ∧ r.2 = (fun c => (c, Message m))
                <$> filter (fun c => ready r0.1 c = Some OPEN) (clients r0.1)
      ∧ chat_to 0 r.2 = [m]
      ∧ (∀ c, c ∈ clients r0.1 → ready r0.1 c = Some OPEN → chat_to c r.2 = [m])
      ∧ (∀ c f, (c, f) ∈ r.2 → c ∈ clients r0.1 ∧ ready r0.1 c = Some OPEN).
Proof.
  intros r0.
  apply (message_accepted r0.1 r0.2 0%nat "s1" 8 "m1" _ "hi").
  - apply after_reachable.
  - apply (bool_decide_unpack _). vm_compute. reflexivity.
  - vm_compute. reflexivity.
  - reflexivity.
  - reflexivity.
  - discriminate.
  - vm_compute. discriminate.
Defined.

Lemma ready_assign ws v s c : ready (assign_sessionId ws v s) c = ready s c.
Proof.
  unfold ready, assign_sessionId. simpl.
  destruct (decide (c = ws)) as [-> | Hne].
  - rewrite lookup_alter_eq. by destruct (conns s !! ws).
  - by rewrite lookup_alter_ne.
Qed.

(** One dispatch of the message handler keeps the client set and the state
    of every socket. *)
Lemma on_message_sockets ws now uuid data s :
  clients (on_message ws now uuid data s).1 = clients s
  ∧ ∀ c, ready (on_message ws now uuid data s).1 c = ready s c.
Proof.
  destruct (on_message_cases ws now uuid data s)
    as [| name s2 _ _ _ -> | | | sid rl text user s2 _ _ _ _ _ _ _ ->]; try done.
  split; [done |]. intros c.
  change (ready (createSession _ _ _ ?x) c) with (ready x c). apply ready_assign.
Qed.

(** X9: every frame that arrives on a registered connection with an OPEN
    socket is answered on that connection: the handler always makes at least
    one send call to the sender (an error frame, the welcome frame, or the
    sender's own chat message). *)
Theorem frame_always_answered (ws : nat) (now : Z) (uuid : string)
    (data : completion json) (s : Server) :
  ws ∈ clients s →
  ready s ws = Some OPEN →
  ∃ f, (ws, f) ∈ (on_message ws now uuid data s).2.
Proof.
  intros Hws Hopen.
  destruct (on_message_sockets ws now uuid data s) as [Hcl Hready].
  destruct (on_message_cases ws now uuid data s)
    as [e | name s2 _ _ _ -> | sid rl | sid rl | sid rl text user s2 _ _ _ _ _ _ _ ->].
  - eexists. apply list_elem_of_singleton. reflexivity.
  - eexists. apply elem_of_app. left. apply list_elem_of_singleton. reflexivity.
  - eexists. apply list_elem_of_singleton. reflexivity.
  - eexists. apply list_elem_of_singleton. reflexivity.
  - eexists. apply broadcast_elem. split; [done |]. by split.
Qed.

Lemma frame_always_answered_witness :
  ∃ f, (0%nat, f) ∈ (on_message 0 5 "u" Throw three_clients).2.
Proof.
  apply (frame_always_answered 0 5 "u" Throw three_clients).
  - apply (bool_decide_unpack _). vm_compute. reflexivity.
  - vm_compute. reflexivity.
Defined.



(** ** wsServer.ts: closing, joining and the rate-limit map *)

(** X11: when a connection closes it leaves the client set, and every other
    connection keeps its registration, socket state and session id.  The
    history and the rate-limit map are not touched.  All the handler sends
    are leave announcements to other connections, never to the closing one;
    if the connection had not joined, nothing is sent and the registry
    stays as it is. *)
Theorem close_effects (ws : nat) (s : Server) :
  let r := step (Close ws) s in
  (ws ∉ clients r.1)
  ∧ ready r.1 ws ≠ Some OPEN
  ∧ (∀ c, c ≠ ws →
       (c ∈ clients r.1 ↔ c ∈ clients s)
       ∧ ready r.1 c = ready s c ∧ bound r.1 c = bound s c)
  ∧ messages r.1 = messages s
  ∧ rateLimitMap r.1 = rateLimitMap s
  ∧ (∀ c f, (c, f) ∈ r.2 → c ≠ ws ∧ ∃ u, f = Presence "leave" u)
  ∧ (bound s ws = None → sessions r.1 = sessions s ∧ r.2 = []).
Proof.
  intros r. unfold r. clear r.
  set (s0 := set_clients (fun l => filter (fun c => c ≠ ws) l)
               (set_conns (fun m => alter (fun k => mkConn CLOSED (sessionId k)) ws m) s)).
  assert (Hstep : step (Close ws) s = on_close ws s0) by done.
  assert (Hcl : clients (on_close ws s0).1 = filter (fun c => c ≠ ws) (clients s)).
  { rewrite on_close_state. by destruct (sid_truthy _). }
  assert (Hco : conns (on_close ws s0).1
                = alter (fun k => mkConn CLOSED (sessionId k)) ws (conns s)).
  { rewrite on_close_state. by destruct (sid_truthy _). }
  rewrite Hstep.
  split; [rewrite Hcl; intros [? _]%list_elem_of_filter; done |].
  split.
  { unfold ready. rewrite Hco, lookup_alter_eq. by destruct (conns s !! ws). }
  split.
  { intros c Hne. split; [| split].
    - rewrite Hcl, list_elem_of_filter. tauto.
    - unfold ready. by rewrite Hco, lookup_alter_ne.
    - rewrite bound_on_close. unfold s0.
      change (bound (set_clients _ ?x) c) with (bound x c). apply bound_set_ready. }
  split; [rewrite on_close_state; by destruct (sid_truthy _) |].
  split; [rewrite on_close_state; by destruct (sid_truthy _) |].
  split.
  { intros c f Hin. destruct (on_close_output ws s0) as [Hout | [u Hout]];
      rewrite Hout in Hin; [by apply elem_of_nil in Hin |].
    apply broadcast_elem in Hin as (-> & Hc & _). split; [| by exists u].
    rewrite Hcl in Hc. by apply list_elem_of_filter in Hc as [? _]. }
  intros Hb.
  assert (Hb0 : bound s0 ws = None).
  { unfold s0. change (bound (set_clients _ ?x) ws) with (bound x ws).
    by rewrite bound_set_ready. }
  unfold on_close. by rewrite Hb0.
Qed.

(** X12: no step removes an entry of the rate-limit map, and the entry of a
    session changes only in a step that handles a message event of the
    connection holding that session id. *)
Theorem rate_limit_entries_kept (e : Event) (s s' : Server) (out : list Send) :
  enabled e s →
  step e s = (s', out) →
  (∀ sid rl, rateLimitMap s !! sid = Some rl → is_Some (rateLimitMap s' !! sid))
  ∧ (∀ sid, rateLimitMap s' !! sid ≠ rateLimitMap s !! sid →
       ∃ ws now uuid data, e = Incoming ws now uuid data
         ∧ event_of_type data "message" ∧ bound s ws = Some sid).
Proof.
  intros Hen Hstep.
  assert (Hsame : rateLimitMap s' = rateLimitMap s →
    (∀ sid rl, rateLimitMap s !! sid = Some rl → is_Some (rateLimitMap s' !! sid))
    ∧ (∀ sid, rateLimitMap s' !! sid ≠ rateLimitMap s !! sid →
         ∃ ws now uuid data, e = Incoming ws now uuid data
           ∧ event_of_type data "message" ∧ bound s ws = Some sid)).
  { intros ->. split; [by eexists | done]. }
  assert (Hput : ∀ ws now uuid data sid rl,
    e = Incoming ws now uuid data → event_of_type data "message" →
    bound s ws = Some sid → rateLimitMap s' = <[sid := rl]> (rateLimitMap s) →
    (∀ sid rl, rateLimitMap s !! sid = Some rl → is_Some (rateLimitMap s' !! sid))
    ∧ (∀ sid, rateLimitMap s' !! sid ≠ rateLimitMap s !! sid →
         ∃ ws now uuid data, e = Incoming ws now uuid data
           ∧ event_of_type data "message" ∧ bound s ws = Some sid)).
  { intros ws now uuid data sid rl -> Hev Hb ->. split.
    - intros sid' rl' Hrl'. destruct (decide (sid = sid')) as [<- | Hne].
      + rewrite lookup_insert_eq. by eexists.
      + rewrite lookup_insert_ne by done. by eexists.
    - intros sid' Hdiff. destruct (decide (sid = sid')) as [<- | Hne].
      + by exists ws, now, uuid, data.
      + by rewrite lookup_insert_ne in Hdiff. }
  destruct e as [ws | ws now uuid data | ws | ws | n]; simpl in Hstep.
  5:{ injection Hstep as <- <-. by apply Hsame. }
  - injection Hstep as <- <-. by apply Hsame.
  - pose proof (on_message_cases ws now uuid data s) as Hcases.
    rewrite Hstep in Hcases. simpl in Hcases.
    destruct Hcases as [| name s2 _ _ _ -> | sid rl Hev Hb _ _ _
                       | sid rl Hev Hb _ _ _
                       | sid rl text user s2 Hev Hb _ _ _ _ _ ->];
      first [by apply Hsame | by eapply Hput].
  - injection Hstep as <- <-. by apply Hsame.
  - apply Hsame. replace s' with (step (Close ws) s).1 by (simpl; by rewrite Hstep).
    apply rateLimitMap_close.
Qed.

Lemma rate_limit_entries_kept_witness :
  let s := (after [Connection 0; Incoming 0 7 "s1" (join_frame "alice");
                   Incoming 0 8 "m1" (message_frame "hi")]).1 in
  let e := Close 0 in
  (∀ sid rl, rateLimitMap s !! sid = Some rl →
     is_Some (rateLimitMap (step e s).1 !! sid))
  ∧ (∀ sid, rateLimitMap (step e s).1 !! sid ≠ rateLimitMap s !! sid →
       ∃ ws now uuid data, e = Incoming ws now uuid data
         ∧ event_of_type data "message" ∧ bound s ws = Some sid).
Proof.
  intros s e.
  apply (rate_limit_entries_kept e s (step e s).1 (step e s).2).
  - apply (bool_decide_unpack _). vm_compute. reflexivity.
  - apply surjective_pairing.
Defined.

(** X13: a successful join registers the session under the new id with the
    given user name and the clock value and does not touch the rate-limit
    map.  Every registered connection with an OPEN socket is sent the join
    announcement, the joiner included, and a connection other than the
    joiner is sent nothing else. *)
Theorem join_announced (ws : nat) (now : Z) (uuid : string) (msg : json)
    (name : string) (s : Server) :
  bound s ws = None →
  frame_of_type msg "join" →
  member msg "username" = Normal (Some (JStr name)) →
  (2 <= utf16_length name)%nat →
  let r := on_message ws now uuid (Normal msg) s in
  sessions r.1 = <[uuid := mkSession uuid name now]> (sessions s)
  ∧ rateLimitMap r.1 = rateLimitMap s
  ∧ (∀ c, c ∈ clients s → ready s c = Some OPEN →
       (c, Presence "join" name) ∈ r.2)
  ∧ (∀ c f, (c, f) ∈ r.2 → c ≠ ws →
       f = Presence "join" name ∧ c ∈ clients s ∧ ready s c = Some OPEN).
Proof.
  intros Hb Hty Hname Hlen r. unfold r.
  rewrite (on_message_join ws now uuid msg name s Hty) by (by rewrite ?Hb).
  cbv zeta. cbn [fst snd].
  set (s2 := createSession uuid name now (assign_sessionId ws uuid s)).
  assert (Hcl : clients s2 = clients s) by done.
  assert (Hready : ∀ c, ready s2 c = ready s c).
  { intros c. unfold s2.
    change (ready (createSession _ _ _ ?x) c) with (ready x c). apply ready_assign. }
  split; [done |]. split; [done |]. split.
  - intros c Hc Hopen. apply elem_of_app. right. apply elem_of_app. left.
    apply broadcast_elem. rewrite Hcl, Hready. done.
  - intros c f Hin Hne.
    apply elem_of_app in Hin as [Hin | Hin].
    { apply list_elem_of_singleton in Hin as [= -> _]. done. }
    apply elem_of_app in Hin as [Hin | Hin].
    + apply broadcast_elem in Hin as (-> & Hc & Hopen).
      rewrite Hcl in Hc. rewrite Hready in Hopen. done.
    + apply list_elem_of_singleton in Hin as [= -> _]. done.
Qed.

Lemma join_announced_witness :
  let r := on_message 0 5 "s1" (join_frame "alice") three_clients in
  sessions r.1 = <["s1" := mkSession "s1" "alice" 5]> (sessions three_clients)
  ∧ rateLimitMap r.1 = rateLimitMap three_clients
  ∧ (∀ c, c ∈ clients three_clients → ready three_clients c = Some OPEN →
       (c, Presence "join" "alice") ∈ r.2)
  ∧ (∀ c f, (c, f) ∈ r.2 → c ≠ 0%nat →
       f = Presence "join" "alice" ∧ c ∈ clients three_clients
       ∧ ready three_clients c = Some OPEN).
Proof.
  apply (join_announced 0 5 "s1" _ "alice" three_clients).
  - vm_compute. reflexivity.
  - reflexivity.
  - reflexivity.
  - vm_compute. lia.
Defined.

(** ** wsServer.ts: sessions and connections over the life of the server *)

Lemma NoDup_omap_inj {A B : Type} (f : A → option B) (l : list A) :
  NoDup l →
  (∀ x y z, x ∈ l → y ∈ l → f x = Some z → f y = Some z → x = y) →
  NoDup (omap f l).
Proof.
  induction 1 as [| x l Hx Hnd IH]; intros Hinj; [constructor |].
  cbn [omap list_omap]. destruct (f x) as [z|] eqn:Hfx.
  - apply NoDup_cons. split.
    + intros (y & Hy & Hfy)%list_elem_of_omap.
      apply Hx. rewrite (Hinj x y z); [done | left | by right | done | done].
    + apply IH. intros a b c Ha Hb. apply Hinj; by right.
  - apply IH. intros a b c Ha Hb. apply Hinj; by right.
Qed.

(** X14: in every reachable state the registry holds exactly the sessions of
    the registered connections that have joined: a session is stored under
    its own id, has a user name of at least two characters, and belongs to
    exactly one registered connection; and there are as many sessions as
    there are registered connections holding a session id.  No session
    outlives its connection. *)
Theorem sessions_match_connections (s : Server) (log : list Send) :
  reachable s log →
  (∀ sid se, sessions s !! sid = Some se →
     id se = sid ∧ (2 <= utf16_length (username se))%nat
     ∧ ∃ c, c ∈ clients s ∧ bound s c = Some sid
            ∧ ∀ c', bound s c' = Some sid → c' = c)
  ∧ size (sessions s) = length (omap (bound s) (clients s)).
Proof.
  intros Hr. pose proof (reachable_consistent _ _ Hr) as Hs. split.
  - intros sid se Hse.
    destruct (sessions_bound _ Hs _ _ Hse) as (c & Hc & Hb).
    destruct (bound_session _ Hs _ _ Hc Hb) as (se' & Hse' & Hid & Hlen).
    assert (se' = se) as -> by congruence.
    split; [done |]. split; [done |]. exists c. split; [done |]. split; [done |].
    intros c' Hb'. by eapply ids_distinct.
  - assert (Hnd : NoDup (omap (bound s) (clients s))).
    { apply NoDup_omap_inj; [apply Hs |].
      intros x y z _ _ Hx Hy. by eapply ids_distinct. }
    rewrite <- (size_list_to_set (C := gset string)) by done.
    rewrite <- size_dom. f_equal. apply set_eq. intros sid.
    rewrite elem_of_dom, elem_of_list_to_set, list_elem_of_omap. split.
    + intros [se Hse]. destruct (sessions_bound _ Hs _ _ Hse) as (c & Hc & Hb).
      by exists c.
    + intros (c & Hc & Hb).
      destruct (bound_session _ Hs _ _ Hc Hb) as (se & Hse & _). by eexists.
Qed.

Lemma sessions_match_connections_witness :
  let r := after [Connection 0; Connection 1; Incoming 0 7 "s1" (join_frame "alice");
                  Incoming 1 8 "s2" (join_frame "bob"); Close 0] in
  (∀ sid se, sessions r.1 !! sid = Some se →
     id se = sid ∧ (2 <= utf16_length (username se))%nat
     ∧ ∃ c, c ∈ clients r.1 ∧ bound r.1 c = Some sid
            ∧ ∀ c', bound r.1 c' = Some sid → c' = c)
  ∧ size (sessions r.1) = length (omap (bound r.1) (clients r.1)).
Proof.
  intros r. apply (sessions_match_connections r.1 r.2). apply after_reachable.
Defined.

(** ** wsServer.ts: the history over runs of the server *)

Lemma drop_app_head {A : Type} (n : nat) (l a : list A) :
  drop n l ++ a = drop (n `min` length l) (l ++ a).
Proof.
  destruct (decide (n ≤ length l)%nat).
  - rewrite Nat.min_l by done. by rewrite drop_app_le.
  - rewrite Nat.min_r by lia. rewrite drop_app_length. by rewrite drop_ge by lia.
Qed.

(** One step either leaves the history alone and sends no chat message, or
    is the store evicting its oldest entries, or is a message event that
    appends one message, carrying the generated id and the clock value, and
    broadcasts it. *)
Lemma step_history e s :
  (messages (step e s).1 = messages s ∧ ∀ c, chat_to c (step e s).2 = [])
  ∨ (∃ n, e = Trim n ∧ messages (step e s).1 = drop n (messages s)
          ∧ (step e s).2 = [])
  ∨ ∃ ws now uuid data m,
      e = Incoming ws now uuid data
      ∧ event_of_type data "message"
      ∧ messages (step e s).1 = messages s ++ [m]
      ∧ msg_id m = uuid
      ∧ timestamp m = now
      ∧ clients (step e s).1 = clients s
      ∧ (step e s).2 = broadcast (Message m) (step e s).1.
Proof.
  destruct e as [ws | ws now uuid data | ws | ws | n].
  - left. by split.
  - simpl.
    destruct (on_message_cases ws now uuid data s)
      as [| name s2 _ _ _ -> | | | sid rl text user s2 Hev _ _ _ _ _ _ ->].
    + left. by split.
    + left. split; [done |]. intros c.
      rewrite !chat_to_app, chat_to_other by done. done.
    + left. by split.
    + left. by split.
    + right. right.
      by exists ws, now, uuid, data, (mkChatMessage uuid user text now).
  - left. by split.
  - left. split.
    + simpl. rewrite on_close_state. by destruct (sid_truthy _).
    + intros c. simpl.
      match goal with |- chat_to c (on_close ws ?s0).2 = _ =>
        destruct (on_close_output ws s0) as [-> | [u ->]] end; [done |].
      by apply chat_to_other.
  - right. left. by exists n.
Qed.

Lemma exec_history es : ∀ s log s1 log1,
  exec es s log = Some (s1, log1) →
  ∃ k added sent, messages s1 = drop k (messages s ++ added)
    ∧ log1 = log ++ sent
    ∧ (length added <= length (omap event_clock es))%nat.
Proof.
  induction es as [| e es IH]; intros s log s1 log1 Hexec; simpl in Hexec.
  - injection Hexec as <- <-. exists 0%nat, [], []. by rewrite !app_nil_r.
  - case_decide as Hen; [| discriminate].
    pose proof (step_history e s) as Hstep.
    destruct (step e s) as [s' out]. simpl in Hstep.
    destruct (IH _ _ _ _ Hexec) as (k & added & sent & Hm & Hl & Hlen).
    change (omap event_clock (e :: es))
      with (match event_clock e with
            | Some y => y :: omap event_clock es
            | None => omap event_clock es
            end).
    destruct Hstep as [[Hsame _] | [(n & -> & Hdrop & _)
                      | (ws & now & uuid & data & m & -> & _ & Happ & _)]].
    + exists k, added, (out ++ sent). rewrite Hm, Hsame, Hl, app_assoc.
      split; [done |]. split; [done |].
      destruct (event_clock e); simpl; lia.
    + exists (n `min` length (messages s) + k)%nat, added, (out ++ sent).
      rewrite Hm, Hdrop, Hl, app_assoc, drop_app_head, drop_drop. done.
    + exists k, (m :: added), (out ++ sent). rewrite Hm, Happ, Hl, <- !app_assoc.
      split; [done |]. split; [done |]. simpl. lia.
Qed.

(** X15: what a run of the server does to the history and to the record of
    send calls.  The handlers only append, and eviction only takes from the
    old end: the history afterwards is the history before followed by the
    newly accepted messages, less some number of its oldest entries; nothing
    is changed or reordered.  The number of new messages is at most the
    number of frames that arrived, and the record of send calls only
    grows. *)
Theorem history_appended_and_trimmed (es : list Event) (s : Server)
    (log : list Send) (s1 : Server) (log1 : list Send) :
  exec es s log = Some (s1, log1) →
  ∃ k added sent, messages s1 = drop k (messages s ++ added)
    ∧ log1 = log ++ sent
    ∧ (length added <= length (omap event_clock es))%nat.
Proof. apply exec_history. Qed.

Lemma history_appended_and_trimmed_witness :
  let es := burst_of_eleven ++ [Trim 4] in
  let r := after es in
  ∃ k added sent, messages r.1 = drop k (messages init ++ added)
    ∧ r.2 = [] ++ sent
    ∧ (length added <= length (omap event_clock es))%nat.
Proof.
  intros es r. apply (history_appended_and_trimmed es init [] r.1 r.2).
  vm_compute. reflexivity.
Defined.



(** One step, seen from a connection that holds a session id: it keeps the
    id, it cannot come back into the client set, and while it is registered
    its session record stays as it is. *)
Lemma step_session ws sid e s :
  consistent s → enabled e s → bound s ws = Some sid →
  bound (step e s).1 ws = Some sid
  ∧ (ws ∈ clients (step e s).1 →
       ws ∈ clients s ∧ sessions (step e s).1 !! sid = sessions s !! sid).
Proof.
  intros Hs Hen Hb.
  destruct e as [c | c now uuid data | c | c | n].
  5:{ by split. }
  - simpl in Hen. assert (c ≠ ws).
    { intros ->. apply bound_known in Hb as [? ?]. congruence. }
    simpl. split.
    + change (bound (set_clients _ ?x) ws) with (bound x ws).
      rewrite bound_connect. by rewrite decide_False.
    + intros [Hin | Hin%list_elem_of_singleton]%elem_of_app; [done | congruence].
  - destruct Hen as (_ & _ & Hfresh). simpl.
    destruct (on_message_cases c now uuid data s)
      as [| name s2 _ Hnull _ -> | | | sid' rl text user s2 _ _ _ _ _ _ _ ->]; try done.
    assert (c ≠ ws) by (intros ->; by apply (bound_falsy _ _ sid Hs) in Hnull).
    split.
    + change (bound (createSession _ _ _ ?x) ws) with (bound x ws).
      rewrite bound_assign. by rewrite decide_False.
    + intros Hin. split; [done |]. simpl. rewrite lookup_insert_ne; [done |].
      intros ->. by apply (fresh_not_bound _ _ ws) in Hfresh.
  - simpl. split; [by rewrite bound_set_ready | done].
  - split.
    + simpl. rewrite bound_on_close.
      change (bound (set_clients _ ?x) ws) with (bound x ws).
      by rewrite bound_set_ready.
    + simpl. rewrite on_close_state.
      set (s0 := set_clients _ _).
      assert (Hb0 : bound s0 c = bound s c).
      { unfold s0. change (bound (set_clients _ ?x) c) with (bound x c).
        apply bound_set_ready. }
      assert (Hin0 : ws ∈ clients s0 → c ≠ ws ∧ ws ∈ clients s).
      { unfold s0. simpl. rewrite list_elem_of_filter.
        intros [Hne ?]. split; [intros Heq; by apply Hne | done]. }
      destruct (sid_truthy (bound s0 c)) eqn:Htruthy.
      * intros [Hne Hin]%Hin0. split; [done |].
        apply sid_truthy_Some in Htruthy as (sid' & Hsid' & _).
        rewrite Hsid'. simpl. rewrite lookup_delete_ne; [done |].
        intros ->. apply Hne. rewrite Hb0 in Hsid'. by eapply ids_distinct.
      * intros [Hne Hin]%Hin0. done.
Qed.

Lemma exec_session ws sid es : ∀ s log s1 log1,
  consistent s → bound s ws = Some sid →
  exec es s log = Some (s1, log1) →
  consistent s1
  ∧ bound s1 ws = Some sid
  ∧ (ws ∈ clients s1 → ws ∈ clients s ∧ sessions s1 !! sid = sessions s !! sid).
Proof.
  induction es as [| e es IH]; intros s log s1 log1 Hs Hb Hexec; simpl in Hexec.
  - by injection Hexec as <- <-.
  - case_decide as Hen; [| discriminate].
    destruct (step_session ws sid e s Hs Hen Hb) as [Hb' Hin'].
    pose proof (consistent_step e s Hs Hen) as Hs'.
    destruct (step e s) as [s' out]. simpl in *.
    destruct (IH _ _ _ _ Hs' Hb' Hexec) as (Hs1 & Hb1 & Hin1).
    split; [done |]. split; [done |].
    intros Hin. destruct (Hin1 Hin) as [Hin2 ->]. by apply Hin'.
Qed.

(** X17: a session is fixed from join to close.  Over any run of events a
    connection keeps the session id it holds; for as long as it stays
    registered the registry keeps its session record (id, user name and
    join time) exactly as it was, whatever that connection or any other
    does; and once it has closed, the session is gone and does not come
    back. *)
Theorem session_fixed_until_close (s : Server) (log : list Send) (ws : nat)
    (sid : string) (es : list Event) (s1 : Server) (log1 : list Send) :
  reachable s log →
  bound s ws = Some sid →
  exec es s log = Some (s1, log1) →
  bound s1 ws = Some sid
  ∧ (ws ∈ clients s1 → ws ∈ clients s ∧ sessions s1 !! sid = sessions s !! sid)
  ∧ (ws ∉ clients s1 → sessions s1 !! sid = None).
Proof.
  intros Hr Hb Hexec. pose proof (reachable_consistent _ _ Hr) as Hs.
  destruct (exec_session ws sid es s log s1 log1 Hs Hb Hexec) as (Hs1 & Hb1 & Hin).
  split; [done |]. split; [done |].
  intros Hout. destruct (sessions s1 !! sid) as [se|] eqn:Hse; [| done].
  destruct (sessions_bound _ Hs1 _ _ Hse) as (c & Hc & Hbc).
  assert (c = ws) as -> by (by eapply ids_distinct). contradiction.
Qed.

Lemma session_fixed_until_close_witness :
  let r := after [Connection 0; Connection 1; Incoming 0 7 "s1" (join_frame "alice")] in
  let es := [Incoming 1 8 "s2" (join_frame "bob"); Incoming 0 9 "m1" (message_frame "hi");
             Incoming 0 10 "x" (join_frame "mallory"); Close 1] in
  let r1 := after ([Connection 0; Connection 1; Incoming 0 7 "s1" (join_frame "alice")]
                   ++ es) in
  bound r1.1 0%nat = Some "s1"
  ∧ (0%nat ∈ clients r1.1 →
       0%nat ∈ clients r.1 ∧ sessions r1.1 !! "s1" = sessions r.1 !! "s1")
  ∧ (0%nat ∉ clients r1.1 → sessions r1.1 !! "s1" = None).
Proof.
  intros r es r1.
  apply (session_fixed_until_close r.1 r.2 0%nat "s1" es r1.1 r1.2).
  - apply after_reachable.
  - vm_compute. reflexivity.
  - vm_compute. reflexivity.
Defined.

Lemma StronglySorted_snoc_le (l : list Z) (x : Z) :
  StronglySorted Z.le l → Forall (fun y => y <= x) l → StronglySorted Z.le (l ++ [x]).
Proof.
  induction 1 as [| y l Hl IH Hy]; intros Hall; simpl.
  - repeat constructor.
  - apply Forall_cons in Hall as [Hyx Hall]. constructor; [by apply IH |].
    apply Forall_app. split; [done |]. by apply Forall_singleton.
Qed.

Lemma StronglySorted_drop (n : nat) (l : list Z) :
  StronglySorted Z.le l → StronglySorted Z.le (drop n l).
Proof.
  intros Hl. rewrite <- (take_drop n l) in Hl.
  by apply StronglySorted_app_1_r in Hl.
Qed.

Lemma exec_timestamps es : ∀ t s log s1 log1,
  exec es s log = Some (s1, log1) →
  clock_monotone t es →
  StronglySorted Z.le (timestamp <$> messages s) →
  Forall (fun y => y <= t) (timestamp <$> messages s) →
  StronglySorted Z.le (timestamp <$> messages s1).
Proof.
  induction es as [| e es IH]; intros t s log s1 log1 Hexec Hclock Hsorted Hall;
    simpl in Hexec.
  - by injection Hexec as <- <-.
  - case_decide as Hen; [| discriminate].
    pose proof (step_history e s) as Hstep.
    destruct (step e s) as [s' out]. simpl in Hstep, Hclock.
    destruct Hstep as [[Hsame _] | [(n & -> & Hdrop & _)
                      | (ws & now & uuid & data & m & -> & _ & Happ & _ & Hts & _)]].
    + rewrite <- Hsame in Hsorted, Hall.
      destruct (event_clock e) as [now|].
      * destruct Hclock as [Hle Hclock].
        eapply (IH now); [done | done | done |].
        eapply Forall_impl; [done |]. simpl. intros; lia.
      * by eapply (IH t).
    + simpl in Hclock. eapply (IH t); [done | done | |].
      * rewrite Hdrop, fmap_drop. by apply StronglySorted_drop.
      * rewrite Hdrop, fmap_drop. by apply Forall_drop.
    + simpl in Hclock. destruct Hclock as [Hle Hclock].
      assert (Hall' : Forall (fun y => y <= now) (timestamp <$> messages s)).
      { eapply Forall_impl; [done |]. simpl. intros; lia. }
      eapply (IH now); [done | done | |].
      * rewrite Happ, fmap_app. simpl. rewrite Hts.
        by apply StronglySorted_snoc_le.
      * rewrite Happ, fmap_app. simpl. rewrite Hts.
        apply Forall_app. split; [done |]. apply Forall_singleton. lia.
Qed.

(** Every message of the history after a run was there before, or carries
    the generated id and the clock value of a message event of the run. *)
Lemma exec_stamped es : ∀ s log s1 log1,
  exec es s log = Some (s1, log1) →
  ∀ m, m ∈ messages s1 →
    m ∈ messages s
    ∨ ∃ ws data, event_of_type data "message"
                 ∧ Incoming ws (timestamp m) (msg_id m) data ∈ es.
Proof.
  induction es as [| e es IH]; intros s log s1 log1 Hexec m Hin; simpl in Hexec.
  - injection Hexec as <- <-. by left.
  - case_decide as Hen; [| discriminate].
    pose proof (step_history e s) as Hstep.
    destruct (step e s) as [s' out]. simpl in Hstep.
    destruct (IH _ _ _ _ Hexec m Hin) as [Hold | (ws & data & Hev & Hes)].
    2:{ right. exists ws, data. split; [done | by right]. }
    destruct Hstep as [[Hsame _] | [(n & -> & Hdrop & _)
                      | (ws & now & uuid & data & m' & -> & Hev & Happ & Hid & Hts & _)]].
    + left. by rewrite <- Hsame.
    + left. rewrite Hdrop in Hold. by apply (subseteq_drop n).
    + rewrite Happ in Hold.
      apply elem_of_app in Hold as [Hold | ->%list_elem_of_singleton]; [by left |].
      right. exists ws, data. split; [done |]. rewrite Hid, Hts. left.
Qed.

(** X18: message timestamps are the clock values of the events that accepted
    them.  On any run from the start of the server, every message of the
    history carries the generated id and the clock value ([Date.now()]) that
    the handler read for one message event of the run; and if the clock
    never goes backwards from one frame to the next, the timestamps of the
    history are in non-decreasing order. *)
Theorem timestamps_follow_clock (es : list Event) (s : Server) (log : list Send) :
  exec es init [] = Some (s, log) →
  (∀ m, m ∈ messages s →
     ∃ ws data, event_of_type data "message"
                ∧ Incoming ws (timestamp m) (msg_id m) data ∈ es)
  ∧ (∀ t, clock_monotone t es → StronglySorted Z.le (timestamp <$> messages s)).
Proof.
  intros Hexec. split.
  - intros m Hin.
    destruct (exec_stamped es init [] s log Hexec m Hin) as [Hold | Hnew]; [| done].
    by apply elem_of_nil in Hold.
  - intros t Hclock.
    eapply exec_timestamps; [done | done | constructor | constructor].
Qed.

Lemma timestamps_follow_clock_witness :
  let es := burst_of_eleven ++ [Trim 4] in
  (∀ m, m ∈ messages (after es).1 →
     ∃ ws data, event_of_type data "message"
                ∧ Incoming ws (timestamp m) (msg_id m) data ∈ es)
  ∧ StronglySorted Z.le (timestamp <$> messages (after es).1).
Proof.
  intros es.
  destruct (timestamps_follow_clock es (after es).1 (after es).2) as [Hstamp Hsorted].
  - vm_compute. reflexivity.
  - split; [exact Hstamp |]. apply (Hsorted 0).
    vm_compute. repeat split; discriminate.
Defined.

(** ** wsServer.ts: welcome and history frames over runs *)

Lemma step_welcome ws sid e s s' out :
  consistent s → enabled e s → step e s = (s', out) →
  ((ws, Welcome sid) ∈ out → bound s' ws = Some sid)
  ∧ (bound s' ws = Some sid → bound s ws = Some sid ∨ (ws, Welcome sid) ∈ out).
Proof.
  intros Hs Hen Hstep.
  assert (Hsame : bound s' ws = bound s ws →
                  (∀ c g, (c, g) ∈ out → is_welcome g = false) →
    ((ws, Welcome sid) ∈ out → bound s' ws = Some sid)
    ∧ (bound s' ws = Some sid → bound s ws = Some sid ∨ (ws, Welcome sid) ∈ out)).
  { intros -> Hnone. split; [| by left]. intros Hin. by apply Hnone in Hin. }
  destruct e as [c | c now uuid data | c | c | n]; simpl in Hstep.
  5:{ injection Hstep as <- <-. apply Hsame; [done |]. by intros ? ? ?%elem_of_nil. }
  - injection Hstep as <- <-. split; [by intros ?%elem_of_nil |].
    change (bound (set_clients _ ?x) ws) with (bound x ws).
    rewrite bound_connect. case_decide; [done | by left].
  - destruct Hen as (Hc & _ & _).
    pose proof (on_message_cases c now uuid data s) as Hcases.
    rewrite Hstep in Hcases. simpl in Hcases.
    destruct Hcases as [| name s2 _ _ _ -> | | | sid' rl text user s2 _ _ _ _ _ _ _ ->].
    + apply Hsame; [done |]. by intros ? ? [= _ ->]%list_elem_of_singleton.
    + destruct (clients_known _ Hs _ Hc) as [k Hk].
      change (bound (createSession _ _ _ ?x) ws) with (bound x ws).
      rewrite bound_assign. split.
      * intros [Hin | Hin]%elem_of_app.
        { apply list_elem_of_singleton in Hin as [= -> ->].
          by rewrite decide_True, Hk. }
        apply elem_of_app in Hin as [Hin | Hin].
        { by apply broadcast_elem in Hin as [? _]. }
        by apply list_elem_of_singleton in Hin.
      * case_decide as Heq; [| by left]. subst. rewrite Hk. intros [= <-].
        right. apply elem_of_app. left. by apply list_elem_of_singleton.
    + apply Hsame; [done |]. by intros ? ? [= _ ->]%list_elem_of_singleton.
    + apply Hsame; [done |]. by intros ? ? [= _ ->]%list_elem_of_singleton.
    + apply Hsame; [done |]. by intros ? ? (-> & _)%broadcast_elem.
  - injection Hstep as <- <-. apply Hsame; [apply bound_set_ready |].
    by intros ? ? ?%elem_of_nil.
  - match type of Hstep with on_close _ ?s0 = _ =>
      pose proof (bound_on_close c s0 ws) as Hb;
      pose proof (on_close_output c s0) as Hout end.
    rewrite Hstep in Hb, Hout. simpl in Hb, Hout. apply Hsame.
    + rewrite Hb. apply (bound_set_ready CLOSED c s ws).
    + destruct Hout as [-> | [u ->]]; [by intros ? ? ?%elem_of_nil |].
      by intros ? ? (-> & _)%broadcast_elem.
Qed.

(** X19: the session id a connection holds is the one the server sent it in
    a welcome frame, and welcome frames go to no one else: in every
    reachable state a connection holds the id [sid] exactly when a welcome
    frame carrying [sid] has been sent to that connection. *)
Theorem welcome_names_session (s : Server) (log : list Send) (ws : nat)
    (sid : string) :
  reachable s log →
  bound s ws = Some sid ↔ (ws, Welcome sid) ∈ log.
Proof.
  induction 1 as [| s log e s' out Hr IH Hen Hstep].
  - split; [discriminate | by intros ?%elem_of_nil].
  - pose proof (reachable_consistent _ _ Hr) as Hs.
    destruct (step_welcome ws sid e s s' out Hs Hen Hstep) as [Hnew Hold].
    rewrite elem_of_app. split.
    + intros [Hb | Hin]%Hold; [left; by apply IH | by right].
    + intros [Hin | Hin]; [| by apply Hnew].
      apply IH in Hin.
      pose proof (step_session ws sid e s Hs Hen Hin) as [Hb _].
      by rewrite Hstep in Hb.
Qed.

Lemma welcome_names_session_witness :
  let r := after [Connection 0; Connection 1; Incoming 1 7 "s1" (join_frame "alice")] in
  bound r.1 1%nat = Some "s1" ↔ (1%nat, Welcome "s1") ∈ r.2.
Proof.
  intros r. apply (welcome_names_session r.1 r.2 1%nat "s1"). apply after_reachable.
Defined.

(** X20: a message that the store still holds is replayed to everyone who
    joins before fifty more frames have arrived: if the message was the
    newest of the history, fewer than fifty frames are handled afterwards,
    and the store has not evicted it in between, the history frame of a join
    that succeeds then contains it. *)
Theorem recent_message_replayed (s : Server) (log : list Send)
    (older : list ChatMessage) (m : ChatMessage) (es : list Event) (s1 : Server)
    (log1 : list Send) (ws : nat) (now : Z) (uuid : string) (msg : json)
    (name : string) :
  messages s = older ++ [m] →
  exec es s log = Some (s1, log1) →
  (length (omap event_clock es) < 50)%nat →
  m ∈ messages s1 →
  bound s1 ws = None →
  frame_of_type msg "join" →
  member msg "username" = Normal (Some (JStr name)) →
  (2 <= utf16_length name)%nat →
  ∃ h, (ws, History h) ∈ (on_message ws now uuid (Normal msg) s1).2 ∧ m ∈ h.
Proof.
  intros Hm Hexec Hfew Hkept Hb Hty Hname Hlen.
  destruct (exec_history es s log s1 log1 Hexec) as (k & added & _ & Hm1 & _ & Hadded).
  rewrite (on_message_join ws now uuid msg name s1 Hty) by (by rewrite ?Hb).
  cbv zeta. cbn [snd]. exists (slice_last 50 (messages s1)). split.
  { apply elem_of_app. right. apply elem_of_app. right.
    by apply list_elem_of_singleton. }
  unfold slice_last. rewrite Hm in Hm1. rewrite <- app_assoc in Hm1.
  destruct (decide (k ≤ length older)%nat) as [Hk | Hk].
  - apply list_elem_of_lookup.
    exists (length older - (k + (length (messages s1) - 50)))%nat.
    rewrite lookup_drop, Hm1, lookup_drop.
    assert (Hlen1 : length (drop k (older ++ [m] ++ added))
                    = (length older + 1 + length added - k)%nat).
    { rewrite length_drop, !length_app. simpl. lia. }
    rewrite Hlen1.
    replace (k + (length older + 1 + length added - k - 50
                  + (length older
                     - (k + (length older + 1 + length added - k - 50)))))%nat
      with (length older) by lia.
    rewrite lookup_app_r by lia. by rewrite Nat.sub_diag.
  - assert (Hshort : (length (messages s1) <= 50)%nat).
    { rewrite Hm1, length_drop, !length_app. simpl. lia. }
    replace (length (messages s1) - 50)%nat with 0%nat by lia. done.
Qed.

Lemma recent_message_replayed_witness :
  let r := after [Connection 0; Incoming 0 7 "s1" (join_frame "alice");
                  Incoming 0 8 "m0" (message_frame "hello");
                  Incoming 0 8 "m1" (message_frame "hi")] in
  let es := [Connection 1; Trim 1] in
  let r1 := after ([Connection 0; Incoming 0 7 "s1" (join_frame "alice");
                    Incoming 0 8 "m0" (message_frame "hello");
                    Incoming 0 8 "m1" (message_frame "hi")] ++ es) in
  ∃ h, (1%nat, History h) ∈ (on_message 1 9 "s2" (join_frame "bob") r1.1).2
       ∧ mkChatMessage "m1" "alice" "hi" 8 ∈ h.
Proof.
  intros r es r1.
  apply (recent_message_replayed r.1 r.2 [mkChatMessage "m0" "alice" "hello" 8]
           _ es r1.1 r1.2 1%nat 9 "s2" _ "bob").
  - vm_compute. reflexivity.
  - vm_compute. reflexivity.
  - vm_compute. lia.
  - apply (bool_decide_unpack _). vm_compute. reflexivity.
  - vm_compute. reflexivity.
  - reflexivity.
  - reflexivity.
  - vm_compute. lia.
Defined.

(** X21: throttling does not carry over to a new session.  The id given out
    at a successful join has no rate-limit entry, so the first message event
    of the new session opens a window with count 1 and is never answered
    with "Rate limit exceeded", whatever the same client or user name did
    under an earlier session. *)
Theorem new_session_not_throttled (s : Server) (log : list Send) (ws : nat)
    (now : Z) (uuid : string) (msg : json) (name : string) :
  reachable s log →
  enabled (Incoming ws now uuid (Normal msg)) s →
  bound s ws = None →
  frame_of_type msg "join" →
  member msg "username" = Normal (Some (JStr name)) →
  (2 <= utf16_length name)%nat →
  let s' := (on_message ws now uuid (Normal msg) s).1 in
  bound s' ws = Some uuid
  ∧ rateLimitMap s' !! uuid = None
  ∧ ∀ now' uuid' msg', frame_of_type msg' "message" →
      let r := on_message ws now' uuid' (Normal msg') s' in
      rateLimitMap r.1 !! uuid = Some (mkRateLimit 1 now')
      ∧ r.2 ≠ [(ws, ErrorFrame "Rate limit exceeded")].
Proof.
  intros Hr (Hws & _ & Hfresh) Hb Hty Hname Hlen s'.
  pose proof (reachable_consistent _ _ Hr) as Hs.
  assert (Hs' : s' = createSession uuid name now (assign_sessionId ws uuid s)).
  { unfold s'. by rewrite (on_message_join ws now uuid msg name s Hty)
      by (by rewrite ?Hb). }
  assert (Hb' : bound s' ws = Some uuid).
  { destruct (clients_known _ Hs _ Hws) as [k Hk]. rewrite Hs'.
    change (bound (createSession _ _ _ ?x) ws) with (bound x ws).
    by rewrite bound_assign, decide_True, Hk. }
  assert (Hnone : rateLimitMap s' !! uuid = None).
  { rewrite Hs'. simpl. destruct (rateLimitMap s !! uuid) as [rl|] eqn:Hrl; [| done].
    destruct (limits_issued _ Hs _ _ Hrl) as (_ & c & Hc).
    by apply (fresh_not_bound _ _ c) in Hfresh. }
  split; [done |]. split; [done |].
  intros now' uuid' msg' Hty' r.
  destruct (on_message_limiter ws now' uuid' msg' uuid s' Hty' Hb' (proj1 Hfresh))
    as (Hmap & _ & _ & _ & Hout & _).
  fold r in Hmap, Hout. rewrite Hnone, rate_limit_update_new in Hmap, Hout.
  split; [by rewrite Hmap, lookup_insert_eq |].
  intros Heq. apply Hout in Heq. simpl in Heq. unfold RATE_LIMIT_MAX in Heq. lia.
Qed.

Lemma new_session_not_throttled_witness :
  let s := (after (burst_of_eleven ++ [Close 0; Connection 1])).1 in
  let s' := (on_message 1 200 "s2" (join_frame "alice") s).1 in
  bound s' 1%nat = Some "s2"
  ∧ rateLimitMap s' !! "s2" = None
  ∧ ∀ now' uuid' msg', frame_of_type msg' "message" →
      let r := on_message 1 now' uuid' (Normal msg') s' in
      rateLimitMap r.1 !! "s2" = Some (mkRateLimit 1 now')
      ∧ r.2 ≠ [(1%nat, ErrorFrame "Rate limit exceeded")].
Proof.
  intros s.
  eapply (new_session_not_throttled s _ 1%nat 200 "s2" _ "alice").
  - apply after_reachable.
  - apply (bool_decide_unpack _). vm_compute. reflexivity.
  - vm_compute. reflexivity.
  - reflexivity.
  - reflexivity.
  - vm_compute. lia.
Defined.
